(** * directedgraph: a lock-guarded directed graph with cycle test and
      topological sort

    Shallow embedding of [directedgraph/directedgraph.go].  Go maps are
    [gmap]s, the slice [order] is a [list] written by index, the
    [sync.RWMutex] is a small record, and every method is a function from
    the graph before the call to the outcome of the call. *)

From Stdlib Require Import ZArith Lia.
From stdpp Require Import gmap strings list fin_maps sets relations.

#[local] Set Warnings "-clear-no-such-hyp".

(** ** Outcomes of running Go code *)

Inductive res (A : Type) : Type :=
  | Ret (a : A)   (* the call returned [a] *)
  | Panic         (* run-time panic (nil map write, index out of range, ...) *)
  | Block         (* the call waits for the lock and never returns *)
  | Fuel.         (* the recursion budget of the model ran out *)
Arguments Ret {A} a.
Arguments Panic {A}.
Arguments Block {A}.
Arguments Fuel {A}.

#[global] Instance res_bind : MBind res := λ A B f m,
  match m with
  | Ret a => f a
  | Panic => Panic
  | Block => Block
  | Fuel => Fuel
  end.
#[global] Instance res_ret : MRet res := λ A a, Ret a.

(** Control flow of a loop body: go on with the next element, or return
    from the enclosing function. *)
Inductive ctl (S R : Type) : Type :=
  | Next (s : S)
  | Return (r : R).
Arguments Next {S R} s.
Arguments Return {S R} r.

(** [for x := range l { body }] over the elements in the order [l]. *)
Fixpoint for_range {A S R} (l : list A) (body : A → S → res (ctl S R))
    (s : S) : res (ctl S R) :=
  match l with
  | [] => Ret (Next s)
  | x :: l' =>
      match body x s with
      | Ret (Next s') => for_range l' body s'
      | Ret (Return r) => Ret (Return r)
      | Panic => Panic
      | Block => Block
      | Fuel => Fuel
      end
  end.

(** ** Iteration order of Go maps

    [range] over a map visits every entry once, in an order the language
    leaves open and that may differ from one loop to the next.  An
    [Oracle] fixes the order of the [n]-th loop of a call; the statements
    below hold for every oracle. *)
Record Oracle : Type := {
  pick : ∀ A : Type, nat → list A → list A;
  pick_perm : ∀ A n (l : list A), pick A n l ≡ₚ l
}.

Definition range {A} (O : Oracle) (n : nat) (m : gmap string A)
  : list (string * A) := pick O _ n (map_to_list m).

(** The oracle that keeps the order of [map_to_list]. *)
Definition plain_order : Oracle :=
  {| pick := λ A _ l, l; pick_perm := λ A _ l, reflexivity l |}.

(** The oracle that reverses the order of [map_to_list]. *)
Definition reverse_order : Oracle :=
  {| pick := λ A _ l, reverse l; pick_perm := λ A _ l, reverse_Permutation l |}.

(** Reading a [map[string]bool]: a missing key reads as [false]. *)
Definition mark (m : gmap string bool) (k : string) : bool :=
  default false (m !! k).

(** The keys that read as [true]. *)
Definition marks (m : gmap string bool) : gset string :=
  dom (filter (λ kv, kv.2 = true) m).

(** ** Errors *)

Inductive error : Type :=
  | ErrorNodeNotFound
  | ErrorNodeAlreadyExists
  | ErrorGraphIsCyclic.

(** ** sync.RWMutex, as seen by one thread of control *)

Record RWMutex : Type := { writer : bool; readers : nat }.

Definition unlocked : RWMutex := {| writer := false; readers := 0 |}.

Definition Lock (l : RWMutex) : res RWMutex :=
  if writer l then Block
  else match readers l with
       | 0 => Ret {| writer := true; readers := 0 |}
       | S _ => Block
       end.

Definition Unlock (l : RWMutex) : res RWMutex :=
  if writer l then Ret {| writer := false; readers := readers l |}
  else Panic.

Definition RLock (l : RWMutex) : res RWMutex :=
  if writer l then Block
  else Ret {| writer := false; readers := S (readers l) |}.

Definition RUnlock (l : RWMutex) : res RWMutex :=
  match readers l with
  | 0 => Panic
  | S n => Ret {| writer := writer l; readers := n |}
  end.

(** ** The graph *)

Section Graph.

Context {V : Type}.

Record DirectedGraph : Type := {
  lock : RWMutex;
  nodes : gmap string V;
  edges : gmap string (gmap string bool)
}.

Definition set_lock (l : RWMutex) (g : DirectedGraph) : DirectedGraph :=
  {| lock := l; nodes := nodes g; edges := edges g |}.
Definition set_nodes (n : gmap string V) (g : DirectedGraph) : DirectedGraph :=
  {| lock := lock g; nodes := n; edges := edges g |}.
Definition set_edges (e : gmap string (gmap string bool)) (g : DirectedGraph)
  : DirectedGraph :=
  {| lock := lock g; nodes := nodes g; edges := e |}.

(** [g.edges[key]] as a value to read or range over: a missing key gives
    the nil map, which reads as empty. *)
Definition succs (g : DirectedGraph) (key : string) : gmap string bool :=
  default ∅ (edges g !! key).

(** [g.lock.Lock(); defer g.lock.Unlock(); body] *)
Definition with_Lock {A} (body : DirectedGraph → res (A * DirectedGraph))
    (g : DirectedGraph) : res (A * DirectedGraph) :=
  l ← Lock (lock g);
  '(a, g') ← body (set_lock l g);
  l' ← Unlock (lock g');
  Ret (a, set_lock l' g').

(** [g.lock.RLock(); defer g.lock.RUnlock(); body] *)
Definition with_RLock {A} (body : DirectedGraph → res (A * DirectedGraph))
    (g : DirectedGraph) : res (A * DirectedGraph) :=
  l ← RLock (lock g);
  '(a, g') ← body (set_lock l g);
  l' ← RUnlock (lock g');
  Ret (a, set_lock l' g').

Definition New : DirectedGraph :=
  {| lock := unlocked; nodes := ∅; edges := ∅ |}.

Definition NewNode (key : string) (value : V)
  : DirectedGraph → res (option error * DirectedGraph) :=
  with_Lock (λ g,
    match nodes g !! key with
    | Some _ => Ret (Some ErrorNodeAlreadyExists, g)
    | None =>
        let g := set_nodes (<[key := value]> (nodes g)) g in
        let g := set_edges (<[key := ∅]> (edges g)) g in
        Ret (None, g)
    end).

Definition Value (key : string)
  : DirectedGraph → res ((option V * option error) * DirectedGraph) :=
  with_RLock (λ g,
    match nodes g !! key with
    | None => Ret ((None, Some ErrorNodeNotFound), g)
    | Some _ =>
        let value := nodes g !! key in
        Ret ((value, None), g)
    end).

Definition UpdateValue (key : string) (value : V)
  : DirectedGraph → res (option error * DirectedGraph) :=
  with_Lock (λ g,
    match nodes g !! key with
    | None => Ret (Some ErrorNodeNotFound, g)
    | Some _ => Ret (None, set_nodes (<[key := value]> (nodes g)) g)
    end).

(** [g.edges[from][to] = true] writes into the map stored at
    [g.edges[from]]; writing into the nil map of a missing key panics. *)
Definition NewEdge (from to : string)
  : DirectedGraph → res (option error * DirectedGraph) :=
  with_Lock (λ g,
    match nodes g !! from with
    | None => Ret (Some ErrorNodeNotFound, g)
    | Some _ =>
        match nodes g !! to with
        | None => Ret (Some ErrorNodeNotFound, g)
        | Some _ =>
            match edges g !! from with
            | None => Panic
            | Some m =>
                Ret (None, set_edges (<[from := <[to := true]> m]> (edges g)) g)
            end
        end
    end).

(** [Edges] takes the read lock without [defer]: the early return keeps
    it. *)
Definition Edges (O : Oracle) (from : string) (g : DirectedGraph)
  : res ((list string * option error) * DirectedGraph) :=
  let edges : list string := [] in
  l ← RLock (lock g);
  let g := set_lock l g in
  match nodes g !! from with
  | None => Ret ((edges, Some ErrorNodeNotFound), g)
  | Some _ =>
      let edges :=
        foldl (λ edges '(to, _),
                 if mark (succs g from) to then edges ++ [to] else edges)
              edges (range O 0 (succs g from)) in
      l ← RUnlock (lock g);
      Ret ((edges, None), set_lock l g)
  end.

(** The loop of [Nodes] runs [len(g.nodes)] times, so [nodes[i]] is always
    inside the slice. *)
Definition Nodes (O : Oracle)
  : DirectedGraph → res (list string * DirectedGraph) :=
  with_RLock (λ g,
    let i := 0%nat in
    let nodes_ := replicate (size (nodes g)) ""%string in
    let '(i, nodes_) :=
      foldl (λ '(i, nodes_) '(key, _), (S i, <[i := key]> nodes_))
            (i, nodes_) (range O 0 (nodes g)) in
    Ret (nodes_, g)).

(** *** Cycle test *)

(** The maps [seen] and [rs] are shared by all recursive calls: they are
    threaded through.  [tick] numbers the [range] loops for the oracle;
    [explored] is a ghost log of the keys whose successors were ranged
    over, most recent first. *)
Record cyc : Type := {
  c_tick : nat;
  c_seen : gmap string bool;
  c_rs : gmap string bool;
  explored : list string
}.

Definition cyc_see (key : string) (s : cyc) : cyc :=
  {| c_tick := c_tick s; c_seen := <[key := true]> (c_seen s);
     c_rs := c_rs s; explored := explored s |}.
Definition cyc_rs (key : string) (b : bool) (s : cyc) : cyc :=
  {| c_tick := c_tick s; c_seen := c_seen s;
     c_rs := <[key := b]> (c_rs s); explored := explored s |}.
Definition cyc_enter (key : string) (s : cyc) : cyc :=
  {| c_tick := S (c_tick s); c_seen := c_seen s;
     c_rs := c_rs s; explored := key :: explored s |}.
Definition cyc_new_rs (s : cyc) : cyc :=
  {| c_tick := c_tick s; c_seen := c_seen s; c_rs := ∅; explored := explored s |}.

Fixpoint isCyclicDFS (fuel : nat) (O : Oracle) (g : DirectedGraph)
    (key : string) (s : cyc) : res (bool * cyc) :=
  match fuel with
  | 0 => Fuel
  | S fuel =>
      let s := cyc_see key s in
      if mark (c_rs s) key then Ret (true, s)
      else
        let s := cyc_rs key true s in
        let kids := range O (c_tick s) (succs g key) in
        let s := cyc_enter key s in
        c ← for_range kids (λ '(to, active) s,
               if active : bool then
                 '(b, s) ← isCyclicDFS fuel O g to s;
                 if b : bool then Ret (Return (true, s))
                 else Ret (Next (cyc_rs to false s))
               else Ret (Next (cyc_rs to false s))) s;
        match c with
        | Return r => Ret r
        | Next s => Ret (false, s)
        end
  end.

(** The body of [IsCyclic] between taking and releasing the lock; it
    also hands back the final traversal state. *)
Definition IsCyclic_walk (fuel : nat) (O : Oracle) (g : DirectedGraph)
  : res (bool * cyc) :=
  let s := {| c_tick := 1; c_seen := ∅; c_rs := ∅; explored := [] |} in
  c ← for_range (range O 0 (nodes g)) (λ '(key, _) s,
         if mark (c_seen s) key then Ret (Next s)
         else
           let s := cyc_new_rs s in
           '(b, s) ← isCyclicDFS fuel O g key s;
           if b : bool then Ret (Return (true, s)) else Ret (Next s)) s;
  match c with
  | Return r => Ret r
  | Next s => Ret (false, s)
  end.

Definition IsCyclic (fuel : nat) (O : Oracle)
  : DirectedGraph → res (bool * DirectedGraph) :=
  with_RLock (λ g, '(b, _) ← IsCyclic_walk fuel O g; Ret (b, g)).

(** *** Topological sort *)

(** [seen] and the backing array of [order] are shared by all recursive
    calls; the index [i] is passed and returned by value. *)
Record tsort : Type := {
  t_tick : nat;
  t_seen : gmap string bool;
  order : list string
}.

Definition tsort_see (key : string) (w : tsort) : tsort :=
  {| t_tick := t_tick w; t_seen := <[key := true]> (t_seen w); order := order w |}.
Definition tsort_tick (w : tsort) : tsort :=
  {| t_tick := S (t_tick w); t_seen := t_seen w; order := order w |}.

(** [order[i] = key]: an index outside the slice panics. *)
Definition tsort_put (i : Z) (key : string) (w : tsort) : res tsort :=
  if bool_decide (0 ≤ i < Z.of_nat (length (order w)))%Z
  then Ret {| t_tick := t_tick w; t_seen := t_seen w;
              order := <[Z.to_nat i := key]> (order w) |}
  else Panic.

(** [i - 1] is only computed after [order[i]] was written, so [0 ≤ i] and
    the subtraction does not wrap. *)
Fixpoint topSort (fuel : nat) (O : Oracle) (g : DirectedGraph)
    (w : tsort) (i : Z) (key : string) : res (Z * tsort) :=
  match fuel with
  | 0 => Fuel
  | S fuel =>
      let w := tsort_see key w in
      let kids := range O (t_tick w) (succs g key) in
      let w := tsort_tick w in
      c ← for_range (R := Empty_set) kids (λ '(to, _) '(i, w),
             if mark (t_seen w) to then Ret (Next (i, w))
             else
               r ← topSort fuel O g w i to;
               Ret (Next r)) (i, w);
      match c with
      | Return r => match r : Empty_set with end
      | Next (i, w) =>
          w ← tsort_put i key w;
          Ret ((i - 1)%Z, w)
      end
  end.

Definition TopSort_walk (fuel : nat) (O : Oracle) (g : DirectedGraph)
  : res (Z * tsort) :=
  let order := replicate (size (nodes g)) ""%string in
  let i := (Z.of_nat (length order) - 1)%Z in
  let w := {| t_tick := 1; t_seen := ∅; order := order |} in
  c ← for_range (R := Empty_set) (range O 0 (nodes g)) (λ '(key, _) '(i, w),
         if mark (t_seen w) key then Ret (Next (i, w))
         else
           r ← topSort fuel O g w i key;
           Ret (Next r)) (i, w);
  match c with
  | Return r => match r : Empty_set with end
  | Next r => Ret r
  end.

Definition TopSort (fuel : nat) (O : Oracle)
  : DirectedGraph → res (list string * DirectedGraph) :=
  with_RLock (λ g, '(_, w) ← TopSort_walk fuel O g; Ret (order w, g)).

(** *** Dump *)

(** [String] writes one line per node and one per active edge; the lines
    are kept unformatted. *)
Inductive line : Type :=
  | NodeLine (key : string) (value : V)
  | EdgeLine (to : string).

Definition String (O : Oracle) (g : DirectedGraph)
  : res (list line * DirectedGraph) :=
  let out : list line := [] in
  l ← RLock (lock g);
  let g := set_lock l g in
  let '(_, out) :=
    foldl (λ '(t, out) '(key, value),
             let out := out ++ [NodeLine key value] in
             let out :=
               foldl (λ out '(to, active),
                        if active : bool then out ++ [EdgeLine to] else out)
                     out (range O t (succs g key)) in
             (S t, out))
          (1, out) (range O 0 (nodes g)) in
  l ← RUnlock (lock g);
  Ret (out, set_lock l g).

(** *** Sequences of calls *)

Inductive call : Type :=
  | CallNewNode (key : string) (value : V)
  | CallValue (key : string)
  | CallUpdateValue (key : string) (value : V)
  | CallNewEdge (from to : string)
  | CallEdges (O : Oracle) (from : string)
  | CallNodes (O : Oracle)
  | CallIsCyclic (fuel : nat) (O : Oracle)
  | CallTopSort (fuel : nat) (O : Oracle)
  | CallString (O : Oracle).

(** The graph a call leaves behind when it returns. *)
Definition after {A} (r : res (A * DirectedGraph)) : res DirectedGraph :=
  '(_, g) ← r; Ret g.

Definition exec (c : call) (g : DirectedGraph) : res DirectedGraph :=
  match c with
  | CallNewNode key value => after (NewNode key value g)
  | CallValue key => after (Value key g)
  | CallUpdateValue key value => after (UpdateValue key value g)
  | CallNewEdge from to => after (NewEdge from to g)
  | CallEdges ord from => after (Edges ord from g)
  | CallNodes ord => after (Nodes ord g)
  | CallIsCyclic fuel ord => after (IsCyclic fuel ord g)
  | CallTopSort fuel ord => after (TopSort fuel ord g)
  | CallString ord => after (String ord g)
  end.

(** The graphs a program can hold: [New()] followed by calls that
    returned. *)
Inductive reachable : DirectedGraph → Prop :=
  | reach_New : reachable New
  | reach_call c g g' : reachable g → exec c g = Ret g' → reachable g'.

(** ** The graph as a relation *)

(** [edge g u v]: [g.edges[u][v]] is [true]. *)
Definition edge (g : DirectedGraph) (u v : string) : Prop := succs g u !! v = Some true.

(** A cycle: a non-empty directed path from a node back to itself. *)
Definition has_cycle (g : DirectedGraph) : Prop := ∃ u, tc (edge g) u u.

Definition no_edges (g : DirectedGraph) : Prop := ∀ u v, ¬ edge g u v.

(** The invariant of the two tables: every node has an adjacency entry,
    and both endpoints of every adjacency entry are nodes. *)
Definition tables_ok (g : DirectedGraph) : Prop :=
  (∀ k, is_Some (nodes g !! k) → is_Some (edges g !! k)) ∧
  (∀ u m v, edges g !! u = Some m → is_Some (m !! v) →
            is_Some (nodes g !! u) ∧ is_Some (nodes g !! v)).

(** Only [true] is ever stored in an adjacency map. *)
Definition edges_active (g : DirectedGraph) : Prop :=
  ∀ u m v b, edges g !! u = Some m → m !! v = Some b → b = true.

(** No writer holds the lock (between calls, none ever does). *)
Definition no_writer (g : DirectedGraph) : Prop := writer (lock g) = false.

(** Well-formed graphs; every graph built through the accessors is one. *)
Definition wf (g : DirectedGraph) : Prop := tables_ok g ∧ edges_active g ∧ no_writer g.

(** ** What [isCyclicDFS] computes

    From [key], the search finds a key marked in [rs] or a key that lies on
    a cycle. *)
Definition hits (g : DirectedGraph) (R : gset string) (key : string) : Prop :=
  ∃ v, rtc (edge g) key v ∧ (v ∈ R ∨ tc (edge g) v v).

(** ** What [topSort] computes *)

(** The keys already placed: the slots of [order] above the index [i]. *)
Definition finished (i : Z) (w : tsort) : list string :=
  drop (Z.to_nat (i + 1)) (order w).

(** Invariant of the traversal; [Gy] is the set of keys entered and not
    yet placed (the keys on the call stack). *)
Definition ts_inv (g : DirectedGraph) (Gy : gset string) (w : tsort) (i : Z) : Prop :=
  length (order w) = size (nodes g) ∧
  (-1 ≤ i < Z.of_nat (length (order w)))%Z ∧
  NoDup (finished i w) ∧
  marks (t_seen w) = Gy ∪ list_to_set (finished i w) ∧
  Gy ## list_to_set (finished i w) ∧
  marks (t_seen w) ⊆ dom (nodes g).

(** Every successor of a key of [F] comes later in [F]. *)
Definition topo (g : DirectedGraph) (F : list string) : Prop :=
  ∀ l1 u l2 v, F = l1 ++ u :: l2 → edge g u v → v ∈ l2.

(** ** Standard white/gray/black cycle search

    The search as the specification words it: a key found on the current
    path is a cycle; a key already seen is never explored again; the
    on-path mark of a key is cleared when the exploration of the key
    itself ends. *)
Fixpoint coloring_DFS (fuel : nat) (O : Oracle) (g : DirectedGraph)
    (key : string) (s : cyc) : res (bool * cyc) :=
  match fuel with
  | 0 => Fuel
  | S fuel =>
      if mark (c_rs s) key then Ret (true, s)
      else if mark (c_seen s) key then Ret (false, s)
      else
        let s := cyc_rs key true (cyc_see key s) in
        let kids := range O (c_tick s) (succs g key) in
        let s := cyc_enter key s in
        c ← for_range kids (λ '(to, active) s,
               if active : bool then
                 '(b, s) ← coloring_DFS fuel O g to s;
                 if b : bool then Ret (Return (true, s)) else Ret (Next s)
               else Ret (Next s)) s;
        match c with
        | Return r => Ret r
        | Next s => Ret (false, cyc_rs key false s)
        end
  end.

Definition coloring_HasCycle_walk (fuel : nat) (O : Oracle) (g : DirectedGraph)
  : res (bool * cyc) :=
  let s := {| c_tick := 1; c_seen := ∅; c_rs := ∅; explored := [] |} in
  c ← for_range (range O 0 (nodes g)) (λ '(key, _) s,
         if mark (c_seen s) key then Ret (Next s)
         else
           '(b, s) ← coloring_DFS fuel O g key s;
           if b : bool then Ret (Return (true, s)) else Ret (Next s)) s;
  match c with
  | Return r => Ret r
  | Next s => Ret (false, s)
  end.

Definition coloring_HasCycle (fuel : nat) (O : Oracle)
  : DirectedGraph → res (bool * DirectedGraph) :=
  with_RLock (λ g, '(b, _) ← coloring_HasCycle_walk fuel O g; Ret (b, g)).

(** Black keys: closed under successors and on no cycle. *)
Definition closed_clean (g : DirectedGraph) (B : gset string) : Prop :=
  (∀ u v, u ∈ B → edge g u v → v ∈ B) ∧ (∀ u, u ∈ B → ¬ tc (edge g) u u).

(** The three mutating calls, returning a non-nil error. *)
Definition fails (g : DirectedGraph) (e : error) (g' : DirectedGraph) : Prop :=
  (∃ key value, NewNode key value g = Ret (Some e, g')) ∨
  (∃ from to, NewEdge from to g = Ret (Some e, g')) ∨
  (∃ key value, UpdateValue key value g = Ret (Some e, g')).

(** What one call can do to the two tables. *)
Inductive effect (g g' : DirectedGraph) : Prop :=
  | eff_none :
      nodes g' = nodes g → edges g' = edges g → effect g g'
  | eff_node key value :
      nodes g !! key = None →
      nodes g' = <[key := value]> (nodes g) →
      edges g' = <[key := ∅]> (edges g) → effect g g'
  | eff_value key value :
      is_Some (nodes g !! key) →
      nodes g' = <[key := value]> (nodes g) →
      edges g' = edges g → effect g g'
  | eff_edge from to m :
      is_Some (nodes g !! from) → is_Some (nodes g !! to) →
      edges g !! from = Some m →
      nodes g' = nodes g →
      edges g' = <[from := <[to := true]> m]> (edges g) → effect g g'.

(** Every node is explored at most once by a cycle test. *)
Definition explores_once (fuel : nat) (O : Oracle) (g : DirectedGraph) : Prop :=
  ∀ b s, IsCyclic_walk fuel O g = Ret (b, s) → NoDup (explored s).

(** Running a list of calls from the empty graph. *)
Definition build (cs : list call) : res DirectedGraph :=
  foldl (λ r c, g ← r; exec c g) (Ret New) cs.

Definition built (cs : list call) : DirectedGraph :=
  match build cs with Ret g => g | _ => New end.

End Graph.
Arguments DirectedGraph V : clear implicits.
Arguments line V : clear implicits.
Arguments call V : clear implicits.

(** ** Sample graphs *)

(** a→b, a→c, b→d, c→d *)
Definition diamond_calls : list (call nat) :=
  [CallNewNode "a" 1; CallNewNode "b" 2; CallNewNode "c" 3; CallNewNode "d" 4;
   CallNewEdge "a" "b"; CallNewEdge "a" "c"; CallNewEdge "b" "d";
   CallNewEdge "c" "d"].
Definition diamond : DirectedGraph nat := built diamond_calls.

(** a→b, b→c, c→a, and d on its own *)
Definition triangle_calls : list (call nat) :=
  [CallNewNode "a" 1; CallNewNode "b" 2; CallNewNode "c" 3; CallNewNode "d" 4;
   CallNewEdge "a" "b"; CallNewEdge "b" "c"; CallNewEdge "c" "a"].
Definition triangle : DirectedGraph nat := built triangle_calls.

(** the diamond with d→a added: a→b→d→a is a cycle *)
Definition closed_diamond : DirectedGraph nat :=
  built (diamond_calls ++ [CallNewEdge "d" "a"]).

(** The traversal state [IsCyclic] starts from. *)
Definition cyc_start : cyc :=
  {| c_tick := 1; c_seen := ∅; c_rs := ∅; explored := [] |}.

(** ** Further notions about the graph *)

Section GraphNotions.

Context {V : Type}.

(** Calls that take the read lock. *)
Definition read_only (c : call V) : bool :=
  match c with
  | CallNewNode _ _ | CallUpdateValue _ _ | CallNewEdge _ _ => false
  | _ => true
  end.

(** [Edges] on a key that is not a node: the one path that returns without
    releasing its lock. *)
Definition Edges_on_missing (c : call V) (g : DirectedGraph V) : Prop :=
  ∃ ord from, c = CallEdges ord from ∧ nodes g !! from = None.

(** [u] stands at a strictly earlier position of [l] than [v]. *)
Definition before (l : list string) (u v : string) : Prop :=
  ∃ i j, l !! i = Some u ∧ l !! j = Some v ∧ i < j.

(** [l] is a topological order of the edges of [g]. *)
Definition topological (g : DirectedGraph V) (l : list string) : Prop :=
  ∀ u v, edge g u v → before l u v.

(** The lines [String] writes for one node: the node line, then one line
    per listed successor. *)
Definition render (blk : string * V * list string) : list (line V) :=
  NodeLine blk.1.1 blk.1.2 :: (EdgeLine <$> blk.2).

End GraphNotions.

(** * The queue

    Shallow embedding of the package [queue]: a slice guarded by a
    [sync.RWMutex].  The zero value of [Queue] is the empty queue. *)

Section QueueModel.

Context {V : Type}.

Record Queue : Type := {
  q_lock : RWMutex;
  data : list V
}.

Inductive queue_error : Type :=
  | ErrorEmpty.

Definition set_q_lock (l : RWMutex) (q : Queue) : Queue :=
  {| q_lock := l; data := data q |}.
Definition set_data (d : list V) (q : Queue) : Queue :=
  {| q_lock := q_lock q; data := d |}.

(** [var q Queue] *)
Definition zero_Queue : Queue := {| q_lock := unlocked; data := [] |}.

(** [q.lock.Lock(); defer q.lock.Unlock(); body] *)
Definition q_with_Lock {A} (body : Queue → res (A * Queue)) (q : Queue)
  : res (A * Queue) :=
  l ← Lock (q_lock q);
  '(a, q') ← body (set_q_lock l q);
  l' ← Unlock (q_lock q');
  Ret (a, set_q_lock l' q').

(** [q.lock.RLock(); defer q.lock.RUnlock(); body] *)
Definition q_with_RLock {A} (body : Queue → res (A * Queue)) (q : Queue)
  : res (A * Queue) :=
  l ← RLock (q_lock q);
  '(a, q') ← body (set_q_lock l q);
  l' ← RUnlock (q_lock q');
  Ret (a, set_q_lock l' q').

Definition Len : Queue → res (Z * Queue) :=
  q_with_RLock (λ q, Ret (Z.of_nat (length (data q)), q)).

Definition Add (item : V) : Queue → res (unit * Queue) :=
  q_with_Lock (λ q, Ret (tt, set_data (data q ++ [item]) q)).

Definition Peek : Queue → res ((option V * option queue_error) * Queue) :=
  q_with_RLock (λ q,
    if (Z.of_nat (length (data q)) =? 0)%Z
    then Ret ((None, Some ErrorEmpty), q)
    else
      match data q !! 0 with
      | Some item => Ret ((Some item, None), q)
      | None => Panic
      end).

Definition Remove : Queue → res ((option V * option queue_error) * Queue) :=
  q_with_Lock (λ q,
    if (Z.of_nat (length (data q)) =? 0)%Z
    then Ret ((None, Some ErrorEmpty), q)
    else
      match data q !! 0 with
      | Some item => Ret ((Some item, None), set_data (drop 1 (data q)) q)
      | None => Panic
      end).

(** [Add] of each item of [xs] in turn. *)
Fixpoint add_all (xs : list V) (q : Queue) : res Queue :=
  match xs with
  | [] => Ret q
  | x :: xs => '(_, q) ← Add x q; add_all xs q
  end.

(** [n] times [Remove], collecting what each call returns until one
    fails. *)
Fixpoint remove_n (n : nat) (q : Queue) : res (list V * Queue) :=
  match n with
  | 0 => Ret ([], q)
  | S n =>
      '(r, q) ← Remove q;
      match r with
      | (Some item, None) => '(items, q) ← remove_n n q; Ret (item :: items, q)
      | _ => Ret ([], q)
      end
  end.

(** The calls of the queue. *)
Inductive q_call : Type :=
  | QLen
  | QAdd (item : V)
  | QPeek
  | QRemove.

Definition q_exec (c : q_call) (q : Queue) : res Queue :=
  match c with
  | QLen => '(_, q) ← Len q; Ret q
  | QAdd item => '(_, q) ← Add item q; Ret q
  | QPeek => '(_, q) ← Peek q; Ret q
  | QRemove => '(_, q) ← Remove q; Ret q
  end.

End QueueModel.
Arguments Queue V : clear implicits.
Arguments q_call V : clear implicits.

(** A queue holding 1, 2, 3, with 1 at the front. *)
Definition sample_queue : Queue nat := {| q_lock := unlocked; data := [1; 2; 3] |}.

(** * Reasoning tools *)

(** ** The result monad and loops *)

(** Loop rule: an invariant [P] indexed by the elements already
    processed, and a condition [Q] on early returns. *)
Lemma for_range_inv {A S R} (P : list A → S → Prop) (Q : R → Prop)
    (body : A → S → res (ctl S R)) (l : list A) (s : S) :
  P [] s →
  (∀ done x rest s, l = done ++ x :: rest → P done s →
     ∃ c, body x s = Ret c ∧
          match c with Next s' => P (done ++ [x]) s' | Return r => Q r end) →
  ∃ c, for_range l body s = Ret c ∧
       match c with Next s' => P l s' | Return r => Q r end.
Proof.
  intros H0 Hstep.
  assert (∀ rest done s, l = done ++ rest → P done s →
    ∃ c, for_range rest body s = Ret c ∧
         match c with Next s' => P l s' | Return r => Q r end) as Hgen.
  { induction rest as [|x rest IH]; intros done s1 Hl HP; simpl.
    - exists (Next s1). rewrite app_nil_r in Hl. by subst.
    - destruct (Hstep done x rest s1 Hl HP) as ([s2|r] & -> & Hc).
      + apply (IH (done ++ [x])); [by rewrite <- app_assoc | done].
      + by exists (Return r). }
  by apply (Hgen l []).
Qed.

(** ** Marked keys of a [map[string]bool] *)

Lemma elem_of_marks m k : k ∈ marks m ↔ mark m k = true.
Proof.
  unfold marks, mark. rewrite elem_of_dom. split.
  - intros [b Hb]. apply map_lookup_filter_Some in Hb as [-> Hb]. by simpl in *; subst.
  - destruct (m !! k) as [[]|] eqn:E; simpl; try discriminate. intros _.
    exists true. by apply map_lookup_filter_Some.
Qed.

Lemma not_elem_of_marks m k : k ∉ marks m ↔ mark m k = false.
Proof. rewrite elem_of_marks. by destruct (mark m k). Qed.

Lemma mark_insert m k k' b :
  mark (<[k := b]> m) k' = if decide (k = k') then b else mark m k'.
Proof. unfold mark. rewrite lookup_insert. by case_decide. Qed.

Lemma marks_insert_true m k : marks (<[k := true]> m) = {[k]} ∪ marks m.
Proof.
  apply set_eq; intros x.
  rewrite elem_of_union, elem_of_singleton, !elem_of_marks, mark_insert.
  destruct (decide (k = x)); naive_solver.
Qed.

Lemma marks_insert_false m k : marks (<[k := false]> m) = marks m ∖ {[k]}.
Proof.
  apply set_eq; intros x.
  rewrite elem_of_difference, elem_of_singleton, !elem_of_marks, mark_insert.
  destruct (decide (k = x)); naive_solver.
Qed.

Lemma marks_empty : marks ∅ = ∅.
Proof. apply set_eq; intros x. rewrite elem_of_marks. unfold mark. rewrite lookup_empty. set_solver. Qed.

Lemma elem_of_range {A} (O : Oracle) n (m : gmap string A) k x :
  (k, x) ∈ range O n m ↔ m !! k = Some x.
Proof. unfold range. rewrite (pick_perm O). apply elem_of_map_to_list. Qed.

(** * The graph as a relation *)

Section Theory.

Context {V : Type}.
Implicit Types (g : DirectedGraph V) (O : Oracle) (key : string).

Lemma succs_Some g u v b : succs g u !! v = Some b →
  ∃ m, edges g !! u = Some m ∧ m !! v = Some b.
Proof.
  unfold succs. destruct (edges g !! u) as [m|]; simpl; [eauto|].
  by rewrite lookup_empty.
Qed.

Lemma edge_nodes g u v : tables_ok g → edge g u v →
  u ∈ dom (nodes g) ∧ v ∈ dom (nodes g).
Proof.
  intros [_ H] (m & Hm & Hv)%succs_Some. rewrite !elem_of_dom. eauto.
Qed.

Lemma succs_edge g u v b : edges_active g → succs g u !! v = Some b → edge g u v.
Proof.
  intros Ha Hs. destruct (succs_Some _ _ _ _ Hs) as (m & Hm & Hv).
  by rewrite (Ha _ _ _ _ Hm Hv) in Hs.
Qed.

Lemma no_edges_acyclic g : no_edges g → ¬ has_cycle g.
Proof. intros Hn [u Hu]. inversion Hu as [? ? H|? ? ? H _]; by apply Hn in H. Qed.

Lemma tc_first g (x z : string) :
  tc (edge g) x z → ∃ y, edge g x y ∧ rtc (edge g) y z.
Proof.
  intros H. inversion H as [? ? He|? y ? He Ht]; subst.
  - exists z. split; [done|apply rtc_refl].
  - exists y. split; [done|]. by apply tc_rtc.
Qed.

Lemma hits_step g R key to :
  edge g key to → hits g ({[key]} ∪ R) to → hits g R key.
Proof.
  intros He (v & Hr & Hv). exists v. split; [by econstructor|].
  destruct Hv as [Hv|Hv]; [|by right].
  apply elem_of_union in Hv as [Hv|Hv]; [|by left].
  apply elem_of_singleton in Hv. subst v. right.
  eapply tc_rtc_r; [by apply tc_once|done].
Qed.

Lemma hits_inv g R key : key ∉ R → hits g R key →
  ∃ to, edge g key to ∧ hits g ({[key]} ∪ R) to.
Proof.
  intros Hk (v & Hr & Hv). apply rtc_inv in Hr as [->|(y & He & Hr)].
  - destruct Hv as [Hv|Hv]; [done|].
    apply tc_first in Hv as (to & He & Hr).
    exists to. split; [done|]. exists v. split; [done|]. left. set_solver.
  - exists y. split; [done|]. exists v. split; [done|].
    destruct Hv; [left; set_solver|by right].
Qed.

(** The keys of [dom (nodes g)] not yet marked bound the depth of the
    recursion. *)
Lemma size_unmarked_lt (N R : gset string) key :
  key ∈ N → key ∉ R → size (N ∖ ({[key]} ∪ R)) < size (N ∖ R).
Proof.
  intros HN HR. apply subset_size. apply strict_spec_alt. split; [set_solver|].
  intros Heq. assert (key ∈ N ∖ R) as Hk by set_solver.
  rewrite <- Heq in Hk. set_solver.
Qed.

Lemma isCyclicDFS_spec fuel : ∀ O g key s,
  tables_ok g → edges_active g → key ∈ dom (nodes g) →
  size (dom (nodes g) ∖ marks (c_rs s)) < fuel →
  ∃ b s', isCyclicDFS fuel O g key s = Ret (b, s') ∧
    (b = true ↔ hits g (marks (c_rs s)) key) ∧
    (b = false → marks (c_rs s') = {[key]} ∪ marks (c_rs s)) ∧
    (b = false → ∀ to, edge g key to → to ∈ marks (c_seen s')) ∧
    marks (c_seen s) ⊆ marks (c_seen s') ∧
    key ∈ marks (c_seen s') ∧
    (∀ k, k ∈ marks (c_seen s') → k ∈ marks (c_seen s) ∨ rtc (edge g) key k).
Proof.
  induction fuel as [|fuel IH]; intros O g key s Hok Hact Hkey Hfuel; [lia|].
  simpl. destruct (mark (c_rs s) key) eqn:Hrs.
  { apply elem_of_marks in Hrs.
    eexists true, _. split; [done|]. simpl. rewrite marks_insert_true.
    split_and!; [|done|done|set_solver|set_solver|set_solver].
    split; [intros _|done]. exists key. split; [apply rtc_refl|by left]. }
  apply not_elem_of_marks in Hrs.
  set (R := marks (c_rs s)) in *. set (R1 := {[key]} ∪ R).
  edestruct (for_range_inv
    (λ (done : list (string * bool)) s1,
       marks (c_rs s1) = R1 ∧
       marks (c_seen s) ⊆ marks (c_seen s1) ∧
       key ∈ marks (c_seen s1) ∧
       (∀ k, k ∈ marks (c_seen s1) → k ∈ marks (c_seen s) ∨ rtc (edge g) key k) ∧
       (∀ to b, (to, b) ∈ done → ¬ hits g R1 to ∧ to ∈ marks (c_seen s1)))
    (λ r : bool * cyc, ∃ s', r = (true, s') ∧ hits g R key ∧
       marks (c_seen s) ⊆ marks (c_seen s') ∧
       key ∈ marks (c_seen s') ∧
       (∀ k, k ∈ marks (c_seen s') → k ∈ marks (c_seen s) ∨ rtc (edge g) key k)))
    as (c & -> & Hc); [| |].
  3: { destruct c as [s1|r]; simpl.
       - destruct Hc as (Hrs1 & Hsub & Hin & Hreach & Hkids).
         exists false, s1. split_and!; try done.
         + split; [done|]. intros Hh. exfalso.
           apply hits_inv in Hh as (to & He & Hto); [|done].
           eapply (Hkids to true); [|done].
           by apply elem_of_range.
         + intros _ to He. eapply (Hkids to true). by apply elem_of_range.
       - destruct Hc as (s' & -> & Hh & Hsub & Hin & Hreach).
         exists true, s'. by split_and!. }
  { simpl. rewrite !marks_insert_true. split_and!; [done|set_solver|set_solver|set_solver|].
    intros to b Hin. by apply elem_of_nil in Hin. }
  intros done [to active] rest s1 Hl (Hrs1 & Hsub & Hin & Hreach & Hkids).
  assert ((to, active) ∈ range O (c_tick s) (succs g key)) as Hmem.
  { rewrite Hl. set_solver. }
  apply elem_of_range in Hmem.
  assert (active = true) as ->.
  { destruct (succs_Some _ _ _ _ Hmem) as (m & Hm & Hv). by eapply Hact. }
  assert (edge g key to) as He by done.
  destruct (edge_nodes _ _ _ Hok He) as [_ Hto].
  destruct (IH O g to s1 Hok Hact Hto)
    as (b & s2 & -> & Hb & Hrs2 & _ & Hsub2 & Hin2 & Hreach2).
  { rewrite Hrs1. pose proof (size_unmarked_lt (dom (nodes g)) R key Hkey Hrs).
    unfold R1. lia. }
  simpl. rewrite Hrs1 in Hb, Hrs2.
  assert (∀ k, k ∈ marks (c_seen s2) → k ∈ marks (c_seen s) ∨ rtc (edge g) key k) as Hreach'.
  { intros k Hk. destruct (Hreach2 k Hk) as [Hk'|Hk']; [by apply Hreach|].
    right. by econstructor. }
  destruct b.
  - eexists (Return _). split; [done|]. eexists. split; [done|].
    split_and!; [|set_solver|set_solver|done].
    eapply hits_step; [done|]. by apply Hb.
  - eexists (Next _). split; [done|]. simpl. rewrite marks_insert_false, Hrs2 by done.
    assert (to ∉ R1) as Hnot.
    { intros Hin'. assert (false = true) as Hf; [|done].
      apply Hb. exists to. split; [apply rtc_refl|by left]. }
    split_and!; [set_solver|set_solver|set_solver|done|].
    intros to' b' [Hd|Hd]%elem_of_app.
    { destruct (Hkids _ _ Hd). split; [done|by apply Hsub2]. }
    apply list_elem_of_singleton in Hd. injection Hd as -> ->.
    split; [|done].
    intros Hh. assert (false = true) as Hf; [by apply Hb|done].
Qed.

Lemma hits_trans g R (a b : string) :
  rtc (edge g) a b → hits g R b → hits g R a.
Proof. intros Hab (v & Hr & Hv). exists v. split; [by etrans|done]. Qed.

Lemma IsCyclic_walk_spec fuel O g :
  tables_ok g → edges_active g → size (nodes g) < fuel →
  ∃ b s, IsCyclic_walk fuel O g = Ret (b, s) ∧ (b = true ↔ has_cycle g).
Proof.
  intros Hok Hact Hfuel. unfold IsCyclic_walk.
  edestruct (for_range_inv
    (λ (done : list (string * V)) s,
       (∀ k, k ∈ marks (c_seen s) → ¬ hits g ∅ k) ∧
       (∀ key v, (key, v) ∈ done → key ∈ marks (c_seen s)))
    (λ r : bool * cyc, ∃ s', r = (true, s') ∧ has_cycle g))
    as (c & -> & Hc); [| |].
  3: { destruct c as [s|r]; simpl.
       - destruct Hc as [Hclean Hall]. exists false, s. split; [done|].
         split; [done|]. intros [u Hu]. exfalso.
         destruct (tc_first _ _ _ Hu) as (y & He & _).
         destruct (edge_nodes _ _ _ Hok He) as [[v Hv]%elem_of_dom _].
         eapply (Hclean u); [eapply Hall; by apply elem_of_range|].
         exists u. split; [apply rtc_refl|by right].
       - destruct Hc as (s' & -> & Hcyc). by exists true, s'. }
  { simpl. rewrite marks_empty. set_solver. }
  intros done [key v] rest s Hl [Hclean Hall].
  assert ((key, v) ∈ range O 0 (nodes g)) as Hmem by (rewrite Hl; set_solver).
  apply elem_of_range in Hmem.
  destruct (mark (c_seen s) key) eqn:Hseen.
  { exists (Next s). split; [done|]. split; [done|].
    intros key' v' [Hd|Hd]%elem_of_app; [by eapply Hall|].
    apply list_elem_of_singleton in Hd. injection Hd as -> ->.
    by apply elem_of_marks. }
  destruct (isCyclicDFS_spec fuel O g key (cyc_new_rs s) Hok Hact)
    as (b & s2 & -> & Hb & _ & _ & Hsub & Hin & Hreach).
  { apply elem_of_dom. eauto. }
  { simpl. rewrite marks_empty, difference_empty_L, size_dom. done. }
  simpl in *. rewrite marks_empty in Hb. destruct b.
  - eexists (Return _). split; [done|]. eexists. split; [done|].
    destruct Hb as [Hb _]. destruct (Hb eq_refl) as (u & _ & [Hu|Hu]); [set_solver|].
    by exists u.
  - eexists (Next _). split; [done|]. split.
    + intros k Hk Hh. destruct (Hreach k Hk) as [Hk'|Hk']; [by eapply Hclean|].
      assert (false = true) as Hf; [|done]. apply Hb. by eapply hits_trans.
    + intros key' v' [Hd|Hd]%elem_of_app; [apply Hsub; by eapply Hall|].
      apply list_elem_of_singleton in Hd. by injection Hd as -> ->.
Qed.

(** ** Locks around a read-only body *)

Lemma with_RLock_read {A} (body : DirectedGraph V → res (A * DirectedGraph V)) g a :
  no_writer g →
  (let l := {| writer := false; readers := S (readers (lock g)) |} in
   body (set_lock l g) = Ret (a, set_lock l g)) →
  with_RLock body g = Ret (a, g).
Proof.
  unfold no_writer, with_RLock, RLock. intros Hw Hbody. rewrite Hw. simpl in *.
  rewrite Hbody. simpl. f_equal. f_equal.
  destruct g as [[w r] n e]; simpl in *. by subst.
Qed.

Lemma IsCyclic_spec fuel O g :
  wf g → size (nodes g) < fuel →
  ∃ b, IsCyclic fuel O g = Ret (b, g) ∧ (b = true ↔ has_cycle g).
Proof.
  intros (Hok & Hact & Hw) Hfuel.
  set (l := {| writer := false; readers := S (readers (lock g)) |}).
  destruct (IsCyclic_walk_spec fuel O (set_lock l g) Hok Hact Hfuel)
    as (b & s & Hwalk & Hb).
  exists b. split; [|done]. apply with_RLock_read; [done|].
  simpl. fold l. by rewrite Hwalk.
Qed.

(** ** What [topSort] computes *)

Lemma drop_insert_here {A} (l : list A) n x :
  n < length l → drop n (<[n := x]> l) = x :: drop (S n) l.
Proof.
  revert n. induction l as [|y l IH]; intros [|n] Hn; simpl in *; try lia; [done|].
  apply IH. lia.
Qed.

Lemma topo_cons g key F :
  topo g F → (∀ v, edge g key v → v ∈ F) → topo g (key :: F).
Proof.
  intros HF Hkey [|x l1] u l2 v Heq He; simpl in Heq; injection Heq as -> ->.
  - by apply Hkey.
  - by eapply HF.
Qed.

Lemma ts_inv_room g Gy w i key :
  ts_inv g Gy w i → key ∈ Gy → key ∈ dom (nodes g) → (0 ≤ i)%Z.
Proof.
  intros (Hlen & Hi & Hnd & Hseen & Hdisj & Hsub) HGy Hkey.
  assert (list_to_set (finished i w) ⊆ dom (nodes g) ∖ {[key]}) as Hin.
  { rewrite Hseen in Hsub. set_solver. }
  apply subseteq_size in Hin.
  rewrite size_list_to_set in Hin by done.
  assert (size (dom (nodes g) ∖ {[key]}) < size (dom (nodes g))) as Hlt.
  { apply subset_size. set_solver. }
  rewrite size_dom in Hlt. unfold finished in Hin. rewrite length_drop in Hin. lia.
Qed.

Lemma topSort_spec fuel : ∀ O g w i key Gy,
  tables_ok g → edges_active g → ts_inv g Gy w i →
  key ∈ dom (nodes g) → key ∉ marks (t_seen w) →
  size (dom (nodes g) ∖ marks (t_seen w)) ≤ fuel →
  ∃ i' w', topSort fuel O g w i key = Ret (i', w') ∧
    ts_inv g Gy w' i' ∧
    (∃ L, finished i' w' = key :: L ++ finished i w) ∧
    (¬ has_cycle g → (∀ x, x ∈ Gy → rtc (edge g) x key) →
     topo g (finished i w) → topo g (finished i' w')).
Proof.
  induction fuel as [|fuel IH]; intros O g w i key Gy Hok Hact Hinv Hkey Hnew Hfuel.
  { exfalso. assert (key ∈ dom (nodes g) ∖ marks (t_seen w)) as Hk by set_solver.
    assert (size (dom (nodes g) ∖ marks (t_seen w)) = 0) as Hz by lia.
    apply size_empty_inv in Hz. set_solver. }
  simpl.
  set (Gy1 := {[key]} ∪ Gy).
  destruct Hinv as (Hlen & Hi & Hnd & Hseen & Hdisj & Hsub).
  edestruct (for_range_inv
    (λ (done : list (string * bool)) '((i1, w1) : Z * tsort),
       ts_inv g Gy1 w1 i1 ∧
       (∃ L, finished i1 w1 = L ++ finished i w) ∧
       (∀ to b, (to, b) ∈ done → to ∈ marks (t_seen w1)) ∧
       (¬ has_cycle g → (∀ x, x ∈ Gy → rtc (edge g) x key) →
        topo g (finished i w) → topo g (finished i1 w1)))
    (λ _ : Empty_set, False))
    as (c & -> & Hc); [| |].
  3: { destruct c as [[i1 w1]|[]]; simpl.
       destruct Hc as (Hinv1 & [L HL] & Hdone & Htopo).
       assert (0 ≤ i1)%Z as H0.
       { eapply ts_inv_room; [done| |done]. set_solver. }
       destruct Hinv1 as (Hlen1 & Hi1 & Hnd1 & Hseen1 & Hdisj1 & Hsub1).
       unfold tsort_put. rewrite bool_decide_eq_true_2 by lia. simpl.
       eexists _, _. split; [done|].
       assert (finished (i1 - 1)
                 {| t_tick := t_tick w1; t_seen := t_seen w1;
                    order := <[Z.to_nat i1 := key]> (order w1) |}
               = key :: finished i1 w1) as HF.
       { unfold finished. simpl. replace (i1 - 1 + 1)%Z with i1 by lia.
         replace (Z.to_nat (i1 + 1)) with (S (Z.to_nat i1)) by lia.
         apply drop_insert_here. lia. }
       assert (key ∉ finished i1 w1) as Hkf.
       { intros Hin. apply (Hdisj1 key); [set_solver|].
         by apply elem_of_list_to_set. }
       split; [|split].
       - assert (key ∉ Gy) as HkGy by (rewrite Hseen in Hnew; set_solver).
         unfold ts_inv. rewrite HF. simpl. rewrite length_insert.
         split_and!; [done|lia|lia| | | |done].
         + by apply NoDup_cons.
         + rewrite Hseen1. unfold Gy1. clear. set_solver.
         + revert Hdisj1 HkGy. unfold Gy1. clear. set_solver.
       - rewrite HF, HL. by exists L.
       - intros Hacyc Hgray Htopo0. rewrite HF. apply topo_cons; [by apply Htopo|].
         intros v He.
         assert (v ∈ marks (t_seen w1)) as Hv.
         { eapply (Hdone v true). by apply elem_of_range. }
         rewrite Hseen1 in Hv. apply elem_of_union in Hv as [Hv|Hv].
         + exfalso. apply Hacyc. exists key.
           apply elem_of_union in Hv as [->%elem_of_singleton|Hv]; [by apply tc_once|].
           eapply tc_rtc_r; [by apply tc_once|by apply Hgray].
         + by apply elem_of_list_to_set in Hv. }
  { simpl. split_and!.
    - unfold ts_inv. simpl. rewrite marks_insert_true.
      change (finished i (tsort_tick (tsort_see key w))) with (finished i w).
      split_and!; [done|lia|lia|done| | |].
      + rewrite Hseen. unfold Gy1. clear. set_solver.
      + rewrite Hseen in Hnew. revert Hnew Hdisj. unfold Gy1. clear. set_solver.
      + revert Hkey Hsub. clear. set_solver.
    - by exists [].
    - intros to b Hin. by apply elem_of_nil in Hin.
    - done. }
  intros done [to b] rest [i1 w1] Hl (Hinv1 & [L HL] & Hdone & Htopo).
  assert ((to, b) ∈ range O (t_tick w) (succs g key)) as Hmem
    by (rewrite Hl; set_solver).
  apply elem_of_range in Hmem.
  assert (edge g key to) as He by by eapply succs_edge.
  destruct (edge_nodes _ _ _ Hok He) as [_ Hto].
  destruct (mark (t_seen w1) to) eqn:Hseen_to.
  { exists (Next (i1, w1)). split; [done|]. split_and!; [done|by exists L| |done].
    intros to' b' [Hd|Hd]%elem_of_app; [by eapply Hdone|].
    apply list_elem_of_singleton in Hd. injection Hd as -> ->.
    by apply elem_of_marks. }
  apply not_elem_of_marks in Hseen_to.
  assert (marks (t_seen w1) = Gy1 ∪ list_to_set (finished i1 w1)) as Hseen1
    by apply Hinv1.
  destruct (IH O g w1 i1 to Gy1 Hok Hact Hinv1 Hto Hseen_to)
    as (i2 & w2 & -> & Hinv2 & [L2 HL2] & Htopo2).
  { assert (dom (nodes g) ∖ marks (t_seen w1)
            ⊆ dom (nodes g) ∖ ({[key]} ∪ marks (t_seen w))) as Hs.
    { rewrite Hseen1, Hseen, HL, list_to_set_app_L. set_solver. }
    apply subseteq_size in Hs.
    pose proof (size_unmarked_lt _ _ _ Hkey Hnew). lia. }
  simpl. exists (Next (i2, w2)). split; [done|]. split_and!; [done| | |].
  - exists (to :: L2 ++ L). rewrite HL2, HL. simpl. by rewrite <- app_assoc.
  - assert (marks (t_seen w2) = Gy1 ∪ list_to_set (finished i2 w2)) as Hseen2
      by apply Hinv2.
    intros to' b' [Hd|Hd]%elem_of_app.
    + specialize (Hdone _ _ Hd). rewrite Hseen2, HL2. rewrite Hseen1 in Hdone.
      simpl. rewrite list_to_set_app_L. set_solver.
    + apply list_elem_of_singleton in Hd. injection Hd as -> ->.
      rewrite Hseen2, HL2. set_solver.
  - intros Hacyc Hgray Htopo0. apply Htopo2; [done| |by apply Htopo].
    intros x [->%elem_of_singleton|Hx]%elem_of_union; [by apply rtc_once|].
    eapply rtc_r; [by apply Hgray|done].
Qed.

Lemma drop_full {A} (l : list A) n : length (drop n l) = length l → drop n l = l.
Proof.
  rewrite length_drop. intros H. destruct l as [|x l]; [by rewrite drop_nil|].
  simpl in H. assert (n = 0) as -> by lia. done.
Qed.

Lemma TopSort_walk_spec fuel O g :
  tables_ok g → edges_active g → size (nodes g) ≤ fuel →
  ∃ i w, TopSort_walk fuel O g = Ret (i, w) ∧
    NoDup (order w) ∧
    (∀ k, k ∈ order w ↔ k ∈ dom (nodes g)) ∧
    length (order w) = size (nodes g) ∧
    (¬ has_cycle g → topo g (order w)).
Proof.
  intros Hok Hact Hfuel. unfold TopSort_walk.
  edestruct (for_range_inv
    (λ (done : list (string * V)) '((i1, w1) : Z * tsort),
       ts_inv g ∅ w1 i1 ∧
       (∀ key v, (key, v) ∈ done → key ∈ marks (t_seen w1)) ∧
       (¬ has_cycle g → topo g (finished i1 w1)))
    (λ _ : Empty_set, False))
    as (c & -> & Hc); [| |].
  3: { destruct c as [[i1 w1]|[]]; simpl.
       destruct Hc as ((Hlen & Hi & Hnd & Hseen & Hdisj & Hsub) & Hdone & Htopo).
       assert (list_to_set (finished i1 w1) = dom (nodes g)) as Hall.
       { apply set_eq. intros k. split; [set_solver|].
         intros [v Hv]%elem_of_dom.
         assert (k ∈ marks (t_seen w1)) as Hk
           by (eapply Hdone; by apply elem_of_range).
         set_solver. }
       assert (finished i1 w1 = order w1) as HF.
       { apply drop_full. fold (finished i1 w1).
         by rewrite <- (size_list_to_set (C := gset string)), Hall, size_dom. }
       rewrite HF in *. exists i1, w1. split_and!; try done.
       intros k. by rewrite <- Hall, elem_of_list_to_set. }
  { assert (finished (Z.of_nat (length (replicate (size (nodes g)) ""%string)) - 1)
              {| t_tick := 1; t_seen := ∅;
                 order := replicate (size (nodes g)) ""%string |} = []) as HF.
    { unfold finished. simpl. apply drop_ge. rewrite length_replicate. lia. }
    simpl. split_and!.
    - unfold ts_inv. rewrite HF. simpl. rewrite length_replicate, marks_empty.
      split_and!; [done|lia|lia|constructor|set_solver|set_solver|set_solver].
    - intros key v Hin. by apply elem_of_nil in Hin.
    - intros _. rewrite HF. intros [|? ?] ? ? ? Heq; discriminate. }
  intros done [key v] rest [i1 w1] Hl (Hinv & Hdone & Htopo).
  assert ((key, v) ∈ range O 0 (nodes g)) as Hmem by (rewrite Hl; set_solver).
  apply elem_of_range in Hmem.
  destruct (mark (t_seen w1) key) eqn:Hseen.
  { exists (Next (i1, w1)). split; [done|]. split_and!; [done| |done].
    intros key' v' [Hd|Hd]%elem_of_app; [by eapply Hdone|].
    apply list_elem_of_singleton in Hd. injection Hd as -> ->.
    by apply elem_of_marks. }
  apply not_elem_of_marks in Hseen.
  destruct (topSort_spec fuel O g w1 i1 key ∅ Hok Hact Hinv)
    as (i2 & w2 & -> & Hinv2 & [L HL] & Htopo2); [by apply elem_of_dom|done| |].
  { etrans; [apply subseteq_size|]; [apply subseteq_difference_l; reflexivity|].
    by rewrite size_dom. }
  simpl. exists (Next (i2, w2)). split; [done|].
  assert (marks (t_seen w1) = ∅ ∪ list_to_set (finished i1 w1)) as Hs1 by apply Hinv.
  assert (marks (t_seen w2) = ∅ ∪ list_to_set (finished i2 w2)) as Hs2 by apply Hinv2.
  split_and!; [done| |].
  - intros key' v' [Hd|Hd]%elem_of_app.
    + specialize (Hdone _ _ Hd). rewrite Hs2, HL. rewrite Hs1 in Hdone.
      simpl. rewrite list_to_set_app_L. set_solver.
    + apply list_elem_of_singleton in Hd. injection Hd as -> ->.
      rewrite Hs2, HL. set_solver.
  - intros Hacyc. apply Htopo2; [done|set_solver|by apply Htopo].
Qed.

Lemma TopSort_spec fuel O g :
  wf g → size (nodes g) ≤ fuel →
  ∃ l, TopSort fuel O g = Ret (l, g) ∧
    NoDup l ∧ (∀ k, k ∈ l ↔ k ∈ dom (nodes g)) ∧
    length l = size (nodes g) ∧
    (¬ has_cycle g → topo g l).
Proof.
  intros (Hok & Hact & Hw) Hfuel.
  set (l := {| writer := false; readers := S (readers (lock g)) |}).
  destruct (TopSort_walk_spec fuel O (set_lock l g) Hok Hact Hfuel)
    as (i & w & Hwalk & Hspec).
  exists (order w). split; [|done]. apply with_RLock_read; [done|].
  simpl. fold l. by rewrite Hwalk.
Qed.

(** ** The standard coloring search finds the same cycles *)

Lemma closed_clean_rtc g B (u v : string) :
  closed_clean g B → u ∈ B → rtc (edge g) u v → v ∈ B.
Proof.
  intros [Hcl _] Hu Hr. induction Hr as [|x y z He _ IHr]; [done|].
  apply IHr. by eapply Hcl.
Qed.

Lemma closed_clean_no_hits g B (G : gset string) u :
  closed_clean g B → G ## B → u ∈ B → ¬ hits g G u.
Proof.
  intros Hcc Hdisj Hu (v & Hr & Hv).
  pose proof (closed_clean_rtc _ _ _ _ Hcc Hu Hr) as HvB.
  destruct Hv as [Hv|Hv]; [set_solver|]. destruct Hcc as [_ Hno]. by eapply Hno.
Qed.

Lemma closed_clean_add g (B : gset string) key :
  closed_clean g B → key ∉ B → (∀ v, edge g key v → v ∈ B) →
  closed_clean g ({[key]} ∪ B).
Proof.
  intros Hcc Hkey Hkids. split.
  - intros u v [->%elem_of_singleton|Hu]%elem_of_union He.
    + apply elem_of_union_r. by apply Hkids.
    + apply elem_of_union_r. destruct Hcc as [Hcl _]. by eapply Hcl.
  - intros u [->%elem_of_singleton|Hu]%elem_of_union Hcyc.
    + apply tc_first in Hcyc as (y & He & Hr). apply Hkey.
      eapply closed_clean_rtc; [done|by apply Hkids|done].
    + destruct Hcc as [_ Hno]. by eapply Hno.
Qed.

Lemma coloring_DFS_spec fuel : ∀ O g key s,
  tables_ok g → edges_active g → key ∈ dom (nodes g) →
  marks (c_rs s) ⊆ marks (c_seen s) →
  closed_clean g (marks (c_seen s) ∖ marks (c_rs s)) →
  size (dom (nodes g) ∖ marks (c_seen s)) < fuel →
  ∃ b s', coloring_DFS fuel O g key s = Ret (b, s') ∧
    (b = true ↔ hits g (marks (c_rs s)) key) ∧
    (b = false →
       marks (c_rs s') = marks (c_rs s) ∧
       marks (c_seen s) ⊆ marks (c_seen s') ∧
       key ∈ marks (c_seen s') ∧
       closed_clean g (marks (c_seen s') ∖ marks (c_rs s))).
Proof.
  induction fuel as [|fuel IH]; intros O g key s Hok Hact Hkey HGS Hcc Hfuel; [lia|].
  simpl. set (G := marks (c_rs s)) in *. set (S0 := marks (c_seen s)) in *.
  destruct (mark (c_rs s) key) eqn:Hrs.
  { apply elem_of_marks in Hrs. exists true, s. split; [done|]. split; [|done].
    split; [intros _|done]. exists key. split; [apply rtc_refl|by left]. }
  apply not_elem_of_marks in Hrs. fold G in Hrs.
  destruct (mark (c_seen s) key) eqn:Hseen.
  { apply elem_of_marks in Hseen. fold S0 in Hseen.
    exists false, s. split; [done|]. split; [|done].
    split; [done|]. intros Hh. exfalso.
    eapply (closed_clean_no_hits g (S0 ∖ G) G key); [done|set_solver|set_solver|done]. }
  apply not_elem_of_marks in Hseen. fold S0 in Hseen.
  set (G1 := {[key]} ∪ G).
  assert (S0 ∖ G = ({[key]} ∪ S0) ∖ G1) as HB by (unfold G1; set_solver).
  edestruct (for_range_inv
    (λ (done : list (string * bool)) s1,
       marks (c_rs s1) = G1 ∧
       {[key]} ∪ S0 ⊆ marks (c_seen s1) ∧
       closed_clean g (marks (c_seen s1) ∖ G1) ∧
       (∀ to b, (to, b) ∈ done → to ∈ marks (c_seen s1) ∖ G1))
    (λ r : bool * cyc, ∃ s', r = (true, s') ∧ hits g G key))
    as (c & -> & Hc); [| |].
  3: { destruct c as [s1|r]; simpl.
       - destruct Hc as (Hrs1 & Hsub & Hcc1 & Hkids).
         assert (∀ v, edge g key v → v ∈ marks (c_seen s1) ∖ G1) as Hall.
         { intros v He. eapply (Hkids v true). by apply elem_of_range. }
         exists false, (cyc_rs key false s1). split; [done|]. split.
         + split; [done|]. intros Hh. exfalso.
           apply hits_inv in Hh as (to & He & Hto); [|done].
           eapply (closed_clean_no_hits g _ G1 to); [done|set_solver|by apply Hall|done].
         + intros _. simpl. rewrite marks_insert_false, Hrs1.
           split_and!; [unfold G1; set_solver|set_solver|set_solver|].
           replace (marks (c_seen s1) ∖ G) with ({[key]} ∪ (marks (c_seen s1) ∖ G1)).
           * apply closed_clean_add; [done|unfold G1; set_solver|done].
           * apply set_eq. intros x. unfold G1.
             destruct (decide (x = key)) as [->|]; set_solver.
       - destruct Hc as (s' & -> & Hh). by exists true, s'. }
  { simpl. rewrite !marks_insert_true. fold G S0. split_and!; [done|done| |].
    - by rewrite <- HB.
    - intros to b Hin. by apply elem_of_nil in Hin. }
  intros done [to active] rest s1 Hl (Hrs1 & Hsub & Hcc1 & Hkids).
  assert ((to, active) ∈ range O (c_tick s) (succs g key)) as Hmem.
  { rewrite Hl. set_solver. }
  apply elem_of_range in Hmem.
  assert (active = true) as ->.
  { destruct (succs_Some _ _ _ _ Hmem) as (m & Hm & Hv). by eapply Hact. }
  assert (edge g key to) as He by done.
  destruct (edge_nodes _ _ _ Hok He) as [_ Hto].
  destruct (IH O g to s1 Hok Hact Hto) as (b & s2 & -> & Hb & Hpost).
  { rewrite Hrs1. unfold G1. set_solver. }
  { by rewrite Hrs1. }
  { assert (dom (nodes g) ∖ marks (c_seen s1) ⊆ dom (nodes g) ∖ ({[key]} ∪ S0)) as Hs
      by set_solver.
    apply subseteq_size in Hs.
    pose proof (size_unmarked_lt (dom (nodes g)) S0 key Hkey Hseen). lia. }
  simpl. rewrite Hrs1 in Hb, Hpost. destruct b.
  - eexists (Return _). split; [done|]. eexists. split; [done|].
    eapply hits_step; [done|]. by apply Hb.
  - eexists (Next _). split; [done|].
    destruct (Hpost eq_refl) as (Hrs2 & Hsub2 & Hin2 & Hcc2).
    assert (to ∉ G1) as Hnot.
    { intros Hin'. assert (false = true) as Hf; [|done].
      apply Hb. exists to. split; [apply rtc_refl|by left]. }
    split_and!; [done|set_solver|done|].
    intros to' b' [Hd|Hd]%elem_of_app.
    { specialize (Hkids _ _ Hd). set_solver. }
    apply list_elem_of_singleton in Hd. injection Hd as -> ->. set_solver.
Qed.

Lemma coloring_HasCycle_walk_spec fuel O g :
  tables_ok g → edges_active g → size (nodes g) < fuel →
  ∃ b s, coloring_HasCycle_walk fuel O g = Ret (b, s) ∧ (b = true ↔ has_cycle g).
Proof.
  intros Hok Hact Hfuel. unfold coloring_HasCycle_walk.
  edestruct (for_range_inv
    (λ (done : list (string * V)) s,
       marks (c_rs s) = ∅ ∧
       closed_clean g (marks (c_seen s)) ∧
       (∀ key v, (key, v) ∈ done → key ∈ marks (c_seen s)))
    (λ r : bool * cyc, ∃ s', r = (true, s') ∧ has_cycle g))
    as (c & -> & Hc); [| |].
  3: { destruct c as [s|r]; simpl.
       - destruct Hc as (Hrs & [_ Hno] & Hall). exists false, s. split; [done|].
         split; [done|]. intros [u Hu]. exfalso.
         destruct (tc_first _ _ _ Hu) as (y & He & _).
         destruct (edge_nodes _ _ _ Hok He) as [[v Hv]%elem_of_dom _].
         eapply (Hno u); [eapply Hall; by apply elem_of_range|done].
       - destruct Hc as (s' & -> & Hcyc). by exists true, s'. }
  { simpl. rewrite marks_empty. split_and!; [done| |set_solver].
    split; set_solver. }
  intros done [key v] rest s Hl (Hrs & Hcc & Hall).
  assert ((key, v) ∈ range O 0 (nodes g)) as Hmem by (rewrite Hl; set_solver).
  apply elem_of_range in Hmem.
  destruct (mark (c_seen s) key) eqn:Hseen.
  { exists (Next s). split; [done|]. split_and!; [done|done|].
    intros key' v' [Hd|Hd]%elem_of_app; [by eapply Hall|].
    apply list_elem_of_singleton in Hd. injection Hd as -> ->.
    by apply elem_of_marks. }
  destruct (coloring_DFS_spec fuel O g key s Hok Hact) as (b & s2 & -> & Hb & Hpost).
  { apply elem_of_dom. eauto. }
  { rewrite Hrs. set_solver. }
  { by rewrite Hrs, difference_empty_L. }
  { assert (size (dom (nodes g) ∖ marks (c_seen s)) ≤ size (dom (nodes g))) as Hs
      by (apply subseteq_size; set_solver).
    rewrite size_dom in Hs. lia. }
  simpl. rewrite Hrs in Hb, Hpost. destruct b.
  - eexists (Return _). split; [done|]. eexists. split; [done|].
    destruct Hb as [Hb _]. destruct (Hb eq_refl) as (u & _ & [Hu|Hu]); [set_solver|].
    by exists u.
  - eexists (Next _). split; [done|].
    destruct (Hpost eq_refl) as (Hrs2 & Hsub2 & Hin2 & Hcc2).
    rewrite difference_empty_L in Hcc2. split_and!; [done|done|].
    intros key' v' [Hd|Hd]%elem_of_app; [apply Hsub2; by eapply Hall|].
    apply list_elem_of_singleton in Hd. by injection Hd as -> ->.
Qed.

Lemma coloring_HasCycle_spec fuel O g :
  wf g → size (nodes g) < fuel →
  ∃ b, coloring_HasCycle fuel O g = Ret (b, g) ∧ (b = true ↔ has_cycle g).
Proof.
  intros (Hok & Hact & Hw) Hfuel.
  set (l := {| writer := false; readers := S (readers (lock g)) |}).
  destruct (coloring_HasCycle_walk_spec fuel O (set_lock l g) Hok Hact Hfuel)
    as (b & s & Hwalk & Hb).
  exists b. split; [|done]. apply with_RLock_read; [done|].
  simpl. fold l. by rewrite Hwalk.
Qed.

(** * The guarded accessors *)

(** ** What each call returns when no lock is held *)

Lemma NewNode_unlocked key value g :
  lock g = unlocked →
  NewNode key value g =
    match nodes g !! key with
    | Some _ => Ret (Some ErrorNodeAlreadyExists, g)
    | None => Ret (None, {| lock := unlocked;
                            nodes := <[key := value]> (nodes g);
                            edges := <[key := ∅]> (edges g) |})
    end.
Proof.
  destruct g as [l n e]; simpl. intros ->. unfold NewNode, with_Lock. simpl.
  by destruct (n !! key).
Qed.

Lemma UpdateValue_unlocked key value g :
  lock g = unlocked →
  UpdateValue key value g =
    match nodes g !! key with
    | None => Ret (Some ErrorNodeNotFound, g)
    | Some _ => Ret (None, {| lock := unlocked;
                              nodes := <[key := value]> (nodes g);
                              edges := edges g |})
    end.
Proof.
  destruct g as [l n e]; simpl. intros ->. unfold UpdateValue, with_Lock. simpl.
  by destruct (n !! key).
Qed.

Lemma NewEdge_unlocked from to g :
  lock g = unlocked →
  NewEdge from to g =
    match nodes g !! from, nodes g !! to with
    | None, _ | _, None => Ret (Some ErrorNodeNotFound, g)
    | Some _, Some _ =>
        match edges g !! from with
        | None => Panic
        | Some m => Ret (None, {| lock := unlocked; nodes := nodes g;
                                  edges := <[from := <[to := true]> m]> (edges g) |})
        end
    end.
Proof.
  destruct g as [l n e]; simpl. intros ->. unfold NewEdge, with_Lock. simpl.
  destruct (n !! from); [|done]. destruct (n !! to); [|done]. by destruct (e !! from).
Qed.

Lemma Value_no_writer key g :
  no_writer g →
  Value key g = Ret ((nodes g !! key,
                      match nodes g !! key with
                      | Some _ => None
                      | None => Some ErrorNodeNotFound
                      end), g).
Proof.
  destruct g as [[w r] n e]; unfold no_writer; simpl. intros ->.
  unfold Value, with_RLock, RLock. simpl. by destruct (n !! key).
Qed.

(** The list [Edges] builds: the keys of the adjacency map that read as
    [true], in the order of the loop. *)
Lemma Edges_loop (m : gmap string bool) (l : list (string * bool)) acc :
  foldl (λ edges '(to, _), if mark m to then edges ++ [to] else edges) acc l
  = acc ++ filter (λ to, mark m to = true) l.*1.
Proof.
  revert acc. induction l as [|[to b] l IH]; intros acc; simpl.
  - by rewrite app_nil_r.
  - rewrite IH. destruct (mark m to) eqn:Hm.
    + rewrite filter_cons_True by done. by rewrite <- app_assoc.
    + rewrite filter_cons_False; [done|]. by rewrite Hm.
Qed.

Lemma Edges_no_writer O from g :
  no_writer g → is_Some (nodes g !! from) →
  Edges O from g =
    Ret ((filter (λ to, mark (succs g from) to = true) (range O 0 (succs g from)).*1,
          None), g).
Proof.
  destruct g as [[w r] n e]; unfold no_writer; simpl. intros -> [v Hv].
  unfold Edges, RLock. simpl. rewrite Hv. simpl. by rewrite Edges_loop.
Qed.

Lemma Edges_missing O from g :
  no_writer g → nodes g !! from = None →
  Edges O from g =
    Ret (([], Some ErrorNodeNotFound),
         set_lock {| writer := false; readers := S (readers (lock g)) |} g).
Proof.
  destruct g as [[w r] n e]; unfold no_writer; simpl. intros -> Hv.
  unfold Edges, RLock. simpl. by rewrite Hv.
Qed.

(** While a reader is registered, a writer waits. *)
Lemma Lock_blocked {A} (body : DirectedGraph V → res (A * DirectedGraph V)) g :
  readers (lock g) ≠ 0 → with_Lock body g = Block.
Proof.
  destruct g as [[w r] n e]; simpl. intros Hr. unfold with_Lock, Lock. simpl.
  destruct w; [done|]. by destruct r.
Qed.

(** After [Edges] on a key that is not a node, a reader stays registered
    and the calls that write wait. *)
Lemma Edges_missing_blocks_writers O from g :
  no_writer g → nodes g !! from = None →
  ∃ g1, Edges O from g = Ret (([], Some ErrorNodeNotFound), g1) ∧
        readers (lock g1) = S (readers (lock g)) ∧
        (∀ key value, NewNode key value g1 = Block) ∧
        (∀ a b, NewEdge a b g1 = Block) ∧
        (∀ key value, UpdateValue key value g1 = Block).
Proof.
  intros Hw Hfrom. rewrite Edges_missing by done. eexists. split; [done|].
  split; [done|]. split_and!; intros; by apply Lock_blocked.
Qed.

(** ** What a call can do to the tables, whatever the state of the lock *)

Ltac lock_cases g :=
  destruct g as [[[] []] ? ?];
  cbn [with_Lock with_RLock Lock RLock Unlock RUnlock mbind res_bind
       writer readers lock nodes edges set_lock set_nodes set_edges after];
  try discriminate.

Lemma exec_effect c g g' :
  exec c g = Ret g' → no_writer g' ∧ effect g g'.
Proof.
  destruct c as [key value|key|key value|from to|ord from|ord|fuel ord|fuel ord|ord];
    unfold exec.
  - unfold NewNode. lock_cases g. destruct (_ !! key) eqn:Hk; simpl;
      intros [= <-]; (split; [done|]).
    + by apply eff_none.
    + by eapply eff_node.
  - unfold Value. lock_cases g; destruct (_ !! key) eqn:Hk; simpl;
      intros [= <-]; (split; [done|]); by apply eff_none.
  - unfold UpdateValue. lock_cases g. destruct (_ !! key) eqn:Hk; simpl;
      intros [= <-]; (split; [done|]).
    + by eapply eff_value.
    + by apply eff_none.
  - unfold NewEdge. lock_cases g.
    destruct (_ !! from) eqn:Hf; simpl; [|intros [= <-]; split; [done|by apply eff_none]].
    destruct (_ !! to) eqn:Ht; simpl; [|intros [= <-]; split; [done|by apply eff_none]].
    destruct (_ !! from) eqn:He in |- *; simpl; [|done].
    intros [= <-]. split; [done|].
    apply (eff_edge _ _ from to g); simpl; rewrite ?Hf, ?Ht; eauto.
  - unfold Edges. lock_cases g; destruct (_ !! from) eqn:Hk; simpl;
      intros [= <-]; (split; [done|]); by apply eff_none.
  - unfold Nodes. lock_cases g;
      match goal with |- context [foldl ?f ?a ?l] => destruct (foldl f a l) end; simpl;
      intros [= <-]; (split; [done|]); by apply eff_none.
  - unfold IsCyclic. lock_cases g;
      match goal with |- context [IsCyclic_walk ?f ?o ?x] =>
        destruct (IsCyclic_walk f o x) as [[? ?]| | |] end; simpl; try discriminate;
      intros [= <-]; (split; [done|]); by apply eff_none.
  - unfold TopSort. lock_cases g;
      match goal with |- context [TopSort_walk ?f ?o ?x] =>
        destruct (TopSort_walk f o x) as [[? ?]| | |] end; simpl; try discriminate;
      intros [= <-]; (split; [done|]); by apply eff_none.
  - unfold String. lock_cases g;
      match goal with |- context [foldl ?f ?a ?l] => destruct (foldl f a l) end; simpl;
      intros [= <-]; (split; [done|]); by apply eff_none.
Qed.

Lemma effect_tables_ok g g' : effect g g' → tables_ok g → tables_ok g'.
Proof.
  intros Heff [Hadj Hend]. unfold tables_ok.
  destruct Heff as [-> ->|key value Hk -> ->|key value Hk -> ->|from to m Hf Ht Hm -> ->].
  - done.
  - split.
    + intros k. rewrite !lookup_insert. destruct (decide (key = k)); [done|apply Hadj].
    + intros u m v. rewrite !lookup_insert.
      destruct (decide (key = u)) as [->|].
      { intros [= <-]. rewrite lookup_empty. by intros []. }
      intros Hu Hv. destruct (Hend _ _ _ Hu Hv) as [H1 H2].
      split; [done|]. destruct (decide (key = v)); done.
  - split.
    + intros k. rewrite lookup_insert. destruct (decide (key = k)) as [->|]; [|apply Hadj].
      intros _. by apply Hadj.
    + intros u m v Hu Hv. destruct (Hend _ _ _ Hu Hv) as [H1 H2].
      rewrite !lookup_insert. split; by case_decide.
  - split.
    + intros k Hk. rewrite lookup_insert. destruct (decide (from = k)); [done|by apply Hadj].
    + intros u m' v. rewrite lookup_insert. destruct (decide (from = u)) as [->|].
      * intros [= <-]. rewrite lookup_insert. destruct (decide (to = v)) as [->|]; [done|].
        intros Hv. by eapply Hend.
      * apply Hend.
Qed.

Lemma effect_edges_active g g' : effect g g' → edges_active g → edges_active g'.
Proof.
  intros Heff Hact. unfold edges_active.
  destruct Heff as [_ ->|key value _ _ ->|key value _ _ ->|from to m _ _ Hm _ ->];
    try done.
  - intros u m v b. rewrite lookup_insert. destruct (decide (key = u)); [|apply Hact].
    intros [= <-]. by rewrite lookup_empty.
  - intros u m' v b. rewrite lookup_insert. destruct (decide (from = u)) as [->|]; [|apply Hact].
    intros [= <-]. rewrite lookup_insert. destruct (decide (to = v)); [by intros [= <-]|].
    by eapply Hact.
Qed.

Lemma reachable_wf g : reachable g → wf g.
Proof.
  induction 1 as [|c g g' _ (Hok & Hact & Hw) Hexec].
  - split; [split|split; [|done]].
    + intros k. simpl. rewrite lookup_empty. by intros [].
    + intros u m v. simpl. by rewrite lookup_empty.
    + intros u m v b. simpl. by rewrite lookup_empty.
  - destruct (exec_effect _ _ _ Hexec) as [Hw' Heff].
    split_and!; [by eapply effect_tables_ok|by eapply effect_edges_active|done].
Qed.

(** * The properties of the graph *)

Lemma acyclic_by_run fuel O g :
  wf g → size (nodes g) < fuel →
  IsCyclic fuel O g = Ret (false, g) → ¬ has_cycle g.
Proof.
  intros Hwf Hfuel Hrun Hcyc.
  destruct (IsCyclic_spec fuel O g Hwf Hfuel) as (b & Hb & Hiff).
  rewrite Hrun in Hb. injection Hb as <-. by apply Hiff in Hcyc.
Qed.

(** C1: on every well-formed graph (every graph built through the
    accessors is one) [IsCyclic] returns, leaves the graph as it was, and
    returns [true] exactly when some non-empty directed path leads from a
    key back to itself, wherever in the graph; so [true] for a self-loop
    and [false] for a graph without edges. *)
Theorem IsCyclic_iff_cycle fuel O g :
  wf g → size (nodes g) < fuel →
  ∃ b, IsCyclic fuel O g = Ret (b, g) ∧
       (b = true ↔ has_cycle g) ∧
       (∀ a, edge g a a → b = true) ∧
       (no_edges g → b = false).
Proof.
  intros Hwf Hfuel.
  destruct (IsCyclic_spec fuel O g Hwf Hfuel) as (b & Hrun & Hiff).
  exists b. split_and!; [done|done| |].
  - intros a Ha. apply Hiff. exists a. by apply tc_once.
  - intros Hno. destruct b; [|done].
    exfalso. eapply no_edges_acyclic; [done|]. by apply Hiff.
Qed.

(** C2: on every well-formed acyclic graph [TopSort] returns a sequence
    without repetition in which, for every edge (u, v), u stands at a
    strictly earlier position than v. *)
Theorem TopSort_topological fuel O g :
  wf g → ¬ has_cycle g → size (nodes g) < fuel →
  ∃ l, TopSort fuel O g = Ret (l, g) ∧ NoDup l ∧
       ∀ u v, edge g u v →
         ∃ i j, l !! i = Some u ∧ l !! j = Some v ∧ i < j.
Proof.
  intros Hwf Hacyc Hfuel.
  destruct (TopSort_spec fuel O g Hwf) as (l & Hrun & Hnd & Hall & _ & Htopo); [lia|].
  exists l. split_and!; [done|done|].
  intros u v He. destruct Hwf as (Hok & _).
  destruct (edge_nodes _ _ _ Hok He) as [Hu _].
  apply Hall, list_elem_of_split in Hu as (l1 & l2 & ->).
  pose proof (Htopo Hacyc l1 u l2 v eq_refl He) as Hv.
  apply list_elem_of_lookup in Hv as [j Hj].
  exists (length l1), (length l1 + S j). split_and!; [|by rewrite lookup_app_r; [|lia];
    replace (length l1 + S j - length l1) with (S j) by lia|lia].
  by rewrite list_lookup_middle.
Qed.

(** C4: on every well-formed graph, cyclic or not, [TopSort] returns a
    sequence that holds every node key exactly once and is as long as the
    node table. *)
Theorem TopSort_every_key_once fuel O g :
  wf g → size (nodes g) < fuel →
  ∃ l, TopSort fuel O g = Ret (l, g) ∧
       NoDup l ∧ (∀ k, k ∈ l ↔ is_Some (nodes g !! k)) ∧
       length l = size (nodes g).
Proof.
  intros Hwf Hfuel.
  destruct (TopSort_spec fuel O g Hwf) as (l & Hrun & Hnd & Hall & Hlen & _); [lia|].
  exists l. split_and!; [done|done| |done].
  intros k. by rewrite Hall, elem_of_dom.
Qed.

(** C3 (as the code has it): [IsCyclic] returns what the standard
    white/gray/black search returns.  In [isCyclicDFS] the on-path mark of
    a key is set on entry; when the call returns [false], every successor
    of the key has been explored and the on-path marks are those at entry
    plus the key itself, whose mark is left for the loop of the caller to
    clear. *)
Theorem isCyclicDFS_marks fuel O O' g key s :
  wf g → key ∈ dom (nodes g) → size (nodes g) < fuel →
  (∃ b, IsCyclic fuel O g = Ret (b, g) ∧
        coloring_HasCycle fuel O' g = Ret (b, g)) ∧
  (∃ b s', isCyclicDFS fuel O g key s = Ret (b, s') ∧
     (b = false →
        marks (c_rs s') = {[key]} ∪ marks (c_rs s) ∧
        ∀ to, edge g key to → to ∈ marks (c_seen s'))).
Proof.
  intros Hwf Hkey Hfuel. split.
  - destruct (IsCyclic_spec fuel O g Hwf Hfuel) as (b & Hrun & Hiff).
    destruct (coloring_HasCycle_spec fuel O' g Hwf Hfuel) as (b' & Hrun' & Hiff').
    exists b. split; [done|]. rewrite Hrun'. do 2 f_equal.
    destruct b, b'; naive_solver.
  - destruct Hwf as (Hok & Hact & _).
    destruct (isCyclicDFS_spec fuel O g key s Hok Hact Hkey)
      as (b & s' & Hrun & _ & Hrs & Hkids & _).
    { assert (size (dom (nodes g) ∖ marks (c_rs s)) ≤ size (dom (nodes g))) as Hs
        by (apply subseteq_size; set_solver).
      rewrite size_dom in Hs. lia. }
    exists b, s'. split; [done|]. intros ->. split; [by apply Hrs|by apply Hkids].
Qed.

(** C5: with no lock held and the tables well formed, [NewEdge a b]
    returns [ErrorNodeNotFound] and changes nothing when [a] or [b] is not
    a node; otherwise it succeeds, a second call succeeds too and leaves
    the graph as the first one did, and [Edges a] lists the same keys after
    one call as after two, whatever the iteration orders. *)
Theorem NewEdge_idempotent g a b :
  lock g = unlocked → tables_ok g →
  (nodes g !! a = None ∨ nodes g !! b = None →
     NewEdge a b g = Ret (Some ErrorNodeNotFound, g)) ∧
  (is_Some (nodes g !! a) → is_Some (nodes g !! b) →
     ∃ g1 g2, NewEdge a b g = Ret (None, g1) ∧
              NewEdge a b g1 = Ret (None, g2) ∧
              ∀ O1 O2, ∃ l1 l2,
                Edges O1 a g1 = Ret ((l1, None), g1) ∧
                Edges O2 a g2 = Ret ((l2, None), g2) ∧
                l1 ≡ₚ l2 ∧ b ∈ l1).
Proof.
  intros Hl [Hadj _]. rewrite NewEdge_unlocked by done. split.
  - intros [-> | Hb]; [done|]. rewrite Hb. by destruct (nodes g !! a).
  - intros Ha Hb. destruct (Hadj a Ha) as [m Hm].
    destruct Ha as [va Ha], Hb as [vb Hb]. rewrite Ha, Hb, Hm.
    set (g1 := {| lock := unlocked; nodes := nodes g;
                  edges := <[a := <[b := true]> m]> (edges g) |}).
    exists g1, g1. split; [done|]. split.
    { rewrite NewEdge_unlocked by done. simpl. rewrite Ha, Hb, lookup_insert_eq.
      unfold g1. by rewrite !insert_insert_eq. }
    assert (no_writer g1) as Hw1 by done.
    assert (is_Some (nodes g1 !! a)) as Ha1 by (simpl; eauto).
    intros O1 O2. rewrite !Edges_no_writer by done.
    eexists _, _. split; [done|]. split; [done|].
    assert (succs g1 a = <[b := true]> m) as Hs.
    { unfold succs. simpl. by rewrite lookup_insert_eq. }
    rewrite Hs. split.
    + unfold range. by rewrite !pick_perm.
    + apply list_elem_of_filter. split; [by rewrite mark_insert, decide_True|].
      apply list_elem_of_fmap. exists (b, true). split; [done|].
      apply elem_of_range. by rewrite lookup_insert_eq.
Qed.

(** C6: with no lock held, [NewNode k v] on a key not in the graph
    succeeds and [Value k] then returns [v]; a second [NewNode k v2] returns
    [ErrorNodeAlreadyExists] and [Value k] still returns [v]. *)
Theorem NewNode_then_duplicate g k v v2 :
  lock g = unlocked → nodes g !! k = None →
  ∃ g1 g2, NewNode k v g = Ret (None, g1) ∧
           Value k g1 = Ret ((Some v, None), g1) ∧
           NewNode k v2 g1 = Ret (Some ErrorNodeAlreadyExists, g2) ∧
           Value k g2 = Ret ((Some v, None), g2).
Proof.
  intros Hl Hk. rewrite NewNode_unlocked, Hk by done.
  set (g1 := {| lock := unlocked; nodes := <[k := v]> (nodes g);
                edges := <[k := ∅]> (edges g) |}).
  assert (Value k g1 = Ret ((Some v, None), g1)) as Hval.
  { rewrite Value_no_writer by done. simpl. by rewrite lookup_insert_eq. }
  exists g1, g1. split_and!; [done|done| |done].
  rewrite NewNode_unlocked by done. simpl. by rewrite lookup_insert_eq.
Qed.

(** C7: whenever [NewNode], [NewEdge] or [UpdateValue] returns a non-nil
    error, the node table and the adjacency table (and the lock) are as
    before the call. *)
Theorem error_leaves_tables g e g' :
  fails g e g' → nodes g' = nodes g ∧ edges g' = edges g ∧ lock g' = lock g.
Proof.
  intros [(key & value & H)|[(from & to & H)|(key & value & H)]]; revert H.
  - unfold NewNode. lock_cases g. destruct (_ !! key); simpl; by intros [= <- <-].
  - unfold NewEdge. lock_cases g. destruct (_ !! from); simpl; [|by intros [= <- <-]].
    destruct (_ !! to); simpl; [|by intros [= <- <-]].
    by destruct (_ !! from).
  - unfold UpdateValue. lock_cases g. destruct (_ !! key); simpl; by intros [= <- <-].
Qed.

(** C8: every call that returns keeps the invariant of the tables (an
    adjacency entry for every node key, both endpoints of every adjacency
    entry in the node table), and the invariant holds in every graph
    reached from [New] by calls. *)
Theorem tables_ok_invariant :
  (∀ c g g', tables_ok g → exec c g = Ret g' → tables_ok g') ∧
  (∀ g, reachable g → tables_ok g).
Proof.
  split.
  - intros c g g' Hok Hexec. destruct (exec_effect _ _ _ Hexec) as [_ Heff].
    by eapply effect_tables_ok.
  - intros g Hg. by destruct (reachable_wf g Hg).
Qed.

(** C10: with no lock held, [UpdateValue k v] on an existing key succeeds;
    afterwards [Value k] returns [v], [Value k'] returns what it returned
    before for every other key, the node keys are the same and the
    adjacency table is the same. *)
Theorem UpdateValue_frame g k v :
  lock g = unlocked → is_Some (nodes g !! k) →
  ∃ g', UpdateValue k v g = Ret (None, g') ∧
        Value k g' = Ret ((Some v, None), g') ∧
        (∀ k' r, k' ≠ k → Value k' g = Ret (r, g) → Value k' g' = Ret (r, g')) ∧
        dom (nodes g') = dom (nodes g) ∧
        edges g' = edges g.
Proof.
  intros Hl [v0 Hk]. rewrite UpdateValue_unlocked, Hk by done.
  eexists. split; [done|]. rewrite Value_no_writer by done. simpl.
  rewrite lookup_insert_eq. split_and!; [done| | |done].
  - intros k' r Hne. rewrite !Value_no_writer by (unfold no_writer; by rewrite ?Hl).
    simpl. rewrite lookup_insert_ne by done. by intros [= <-].
  - rewrite dom_insert_L. apply elem_of_dom_2 in Hk. set_solver.
Qed.

(** * Further properties of the accessors *)

(** The loop of [Nodes] fills the slice with the keys in the order of the
    loop. *)
Lemma Nodes_loop (l : list (string * V)) (pre : list string) :
  foldl (λ '(i, nodes_) '(key, _), (S i, <[i := key]> nodes_))
        (length pre, pre ++ replicate (length l) ""%string) l
  = (length pre + length l, pre ++ l.*1).
Proof.
  revert pre. induction l as [|[key v] l IH]; intros pre; simpl.
  - by rewrite Nat.add_0_r.
  - replace (<[length pre := key]> (pre ++ ""%string :: replicate (length l) ""%string))
      with ((pre ++ [key]) ++ replicate (length l) ""%string).
    + replace (S (length pre)) with (length (pre ++ [key]))
        by (rewrite length_app; simpl; lia).
      rewrite IH, length_app, <- app_assoc. simpl. f_equal. lia.
    + rewrite insert_app_r_alt, Nat.sub_diag by lia. simpl. by rewrite <- app_assoc.
Qed.

Lemma Nodes_no_writer O g :
  no_writer g → Nodes O g = Ret ((range O 0 (nodes g)).*1, g).
Proof.
  intros Hw. apply with_RLock_read; [done|]. simpl.
  assert (size (nodes g) = length (range O 0 (nodes g))) as ->.
  { unfold range. by rewrite pick_perm, length_map_to_list. }
  pose proof (Nodes_loop (range O 0 (nodes g)) []) as Hloop. simpl in Hloop.
  by rewrite Hloop.
Qed.

(** X1: when no writer holds the lock, [Nodes] returns every node key
    exactly once, in a slice as long as the node table, and leaves the graph
    as it was. *)
Theorem Nodes_every_key_once O g :
  no_writer g →
  ∃ l, Nodes O g = Ret (l, g) ∧
       NoDup l ∧ (∀ k, k ∈ l ↔ is_Some (nodes g !! k)) ∧
       length l = size (nodes g).
Proof.
  intros Hw. rewrite Nodes_no_writer by done. eexists. split; [done|].
  unfold range. split_and!.
  - rewrite pick_perm. apply NoDup_fst_map_to_list.
  - intros k. rewrite pick_perm, list_elem_of_fmap. split.
    + intros ([k' v] & -> & Hin). apply elem_of_map_to_list in Hin. by eexists.
    + intros [v Hv]. exists (k, v). split; [done|]. by apply elem_of_map_to_list.
  - by rewrite length_fmap, pick_perm, length_map_to_list.
Qed.

(** X2: when no lock is held, [Value] returns the stored value with a nil
    error exactly for the keys of the node table; for any other key both
    [Value] and [UpdateValue] return [ErrorNodeNotFound] and leave the graph
    as it was: [UpdateValue] never creates a node. *)
Theorem Value_found_iff_node g key value :
  lock g = unlocked →
  (∀ v, Value key g = Ret ((Some v, None), g) ↔ nodes g !! key = Some v) ∧
  (nodes g !! key = None →
     Value key g = Ret ((None, Some ErrorNodeNotFound), g) ∧
     UpdateValue key value g = Ret (Some ErrorNodeNotFound, g)).
Proof.
  intros Hl. assert (no_writer g) as Hw by (unfold no_writer; by rewrite Hl).
  rewrite Value_no_writer, UpdateValue_unlocked by done. split.
  - intros v. destruct (nodes g !! key); split; intros H; by simplify_eq.
  - by intros ->.
Qed.

Lemma mark_true (m : gmap string bool) k : mark m k = true ↔ m !! k = Some true.
Proof. unfold mark. destruct (m !! k) as [[]|]; naive_solver. Qed.

(** X3: when no writer holds the lock, [Edges] on a node returns each
    direct successor of the node exactly once and nothing else, and leaves
    the graph (and the lock) as it was. *)
Theorem Edges_lists_successors O from g :
  no_writer g → is_Some (nodes g !! from) →
  ∃ l, Edges O from g = Ret ((l, None), g) ∧
       NoDup l ∧ ∀ to, to ∈ l ↔ edge g from to.
Proof.
  intros Hw Hfrom. rewrite Edges_no_writer by done. eexists. split; [done|]. split.
  - apply NoDup_filter. unfold range. rewrite pick_perm. apply NoDup_fst_map_to_list.
  - intros to. rewrite list_elem_of_filter, mark_true, list_elem_of_fmap. unfold edge.
    split; [by intros [? _]|]. intros He. split; [done|].
    exists (to, true). split; [done|]. by apply elem_of_range.
Qed.

(** ** Adding nodes and edges *)

Lemma tc_impl (R R' : relation string) (x y : string) :
  (∀ u v, R u v → R' u v) → tc R x y → tc R' x y.
Proof.
  intros Hsub Ht. induction Ht as [x y H|x y z H _ IH].
  - apply tc_once. by apply Hsub.
  - eapply tc_l; [by apply Hsub|done].
Qed.

(** Paths in a relation with one more pair [(a, b)]. *)
Lemma rtc_add_edge (R R' : relation string) (a b : string) :
  (∀ x y, R' x y ↔ R x y ∨ (x = a ∧ y = b)) →
  ∀ x y, rtc R' x y → rtc R x y ∨ (rtc R x a ∧ rtc R b y).
Proof.
  intros HR' x y Hr. induction Hr as [x|x x' y Hstep _ IH]; [by left|].
  apply HR' in Hstep as [Hstep|[-> ->]].
  - destruct IH as [IH|[IH1 IH2]]; [left|right; split; [|done]]; by econstructor.
  - right. split; [done|]. by destruct IH as [IH|[_ IH]].
Qed.

Lemma cycle_add_edge (R R' : relation string) (a b : string) :
  (∀ x y, R' x y ↔ R x y ∨ (x = a ∧ y = b)) →
  (∃ u, tc R' u u) ↔ (∃ u, tc R u u) ∨ rtc R b a.
Proof.
  intros HR'. split.
  - intros [u Hu].
    assert (∃ u', R' u u' ∧ rtc R' u' u) as (u' & Hstep & Hr).
    { inversion Hu as [? ? H|? y ? H Ht]; subst; [by exists u|].
      exists y. split; [done|]. by apply tc_rtc. }
    apply (rtc_add_edge R R' a b HR') in Hr.
    apply HR' in Hstep as [Hstep|[-> ->]].
    + destruct Hr as [Hr|[Hr1 Hr2]].
      * left. exists u. eapply tc_rtc_r; [by apply tc_once|done].
      * right. etrans; [done|]. by econstructor.
    + right. by destruct Hr as [Hr|[Hr _]].
  - intros [[u Hu]|Hr].
    + exists u. eapply tc_impl; [|done]. intros x y Hxy. apply HR'. by left.
    + exists a. eapply tc_rtc_r; [apply tc_once, HR'; by right|].
      eapply rtc_congruence with (f := id); [|done]. intros x y Hxy. apply HR'. by left.
Qed.

Lemma has_cycle_iff g g' :
  (∀ u v, edge g' u v ↔ edge g u v) → has_cycle g' ↔ has_cycle g.
Proof.
  intros He. split; intros [u Hu]; exists u; (eapply tc_impl; [|done]);
    intros x y; by rewrite He.
Qed.

Lemma exec_wf c g g' : wf g → exec c g = Ret g' → wf g'.
Proof.
  intros (Hok & Hact & _) Hexec. destruct (exec_effect _ _ _ Hexec) as [Hw Heff].
  split_and!; [by eapply effect_tables_ok|by eapply effect_edges_active|done].
Qed.

(** X4: when no lock is held and the tables are well formed, [NewNode] on
    a key that is not in the graph adds that key and nothing else: the
    values of the other keys and all edges are as before, the new node has
    no outgoing edge, and the graph has a cycle after the call exactly when
    it had one before. *)
Theorem NewNode_adds_isolated_node g k v :
  lock g = unlocked → tables_ok g → nodes g !! k = None →
  ∃ g1, NewNode k v g = Ret (None, g1) ∧
        dom (nodes g1) = {[k]} ∪ dom (nodes g) ∧
        (∀ k', k' ≠ k → nodes g1 !! k' = nodes g !! k') ∧
        (∀ u w, edge g1 u w ↔ edge g u w) ∧
        (∀ w, ¬ edge g1 k w) ∧
        (has_cycle g1 ↔ has_cycle g).
Proof.
  intros Hl Hok Hk. rewrite NewNode_unlocked, Hk by done.
  eexists. split; [done|].
  assert (∀ w, ¬ edge g k w) as Hnone.
  { intros w He. destruct (edge_nodes _ _ _ Hok He) as [[v' Hv']%elem_of_dom _].
    by rewrite Hk in Hv'. }
  assert (∀ u w, edge {| lock := unlocked; nodes := <[k:=v]> (nodes g);
                         edges := <[k:=∅]> (edges g) |} u w ↔ edge g u w) as He.
  { intros u w. unfold edge at 1. unfold succs. simpl. rewrite lookup_insert.
    destruct (decide (k = u)) as [->|]; [|done]. simpl. rewrite lookup_empty.
    split; [done|]. intros H. by apply Hnone in H. }
  simpl. split_and!.
  - by rewrite dom_insert_L.
  - intros k' Hne. by rewrite lookup_insert_ne.
  - done.
  - intros w. rewrite He. apply Hnone.
  - by apply has_cycle_iff.
Qed.

Lemma NewEdge_edges g a b m :
  edges g !! a = Some m →
  ∀ u w, edge {| lock := unlocked; nodes := nodes g;
                 edges := <[a := <[b := true]> m]> (edges g) |} u w
         ↔ edge g u w ∨ (u = a ∧ w = b).
Proof.
  intros Hm u w. unfold edge, succs. simpl. rewrite lookup_insert.
  destruct (decide (a = u)) as [<-|Hne]; simpl.
  - rewrite Hm. simpl. rewrite lookup_insert.
    destruct (decide (b = w)) as [<-|Hne]; naive_solver.
  - naive_solver.
Qed.

(** X5: when no lock is held and the tables are well formed, [NewEdge a b]
    between two nodes changes no node and no value and adds exactly the
    edge (a, b): every edge of before is still there and no other one is
    new. *)
Theorem NewEdge_adds_one_edge g a b :
  lock g = unlocked → tables_ok g →
  is_Some (nodes g !! a) → is_Some (nodes g !! b) →
  ∃ g1, NewEdge a b g = Ret (None, g1) ∧
        nodes g1 = nodes g ∧
        ∀ u w, edge g1 u w ↔ edge g u w ∨ (u = a ∧ w = b).
Proof.
  intros Hl [Hadj _] Ha Hb. destruct (Hadj a Ha) as [m Hm].
  destruct Ha as [va Ha], Hb as [vb Hb].
  rewrite NewEdge_unlocked, Ha, Hb, Hm by done.
  eexists. split; [done|]. split; [done|]. by apply NewEdge_edges.
Qed.

(** X6: on a well-formed graph with no lock held, the cycle test run after
    [NewEdge a b] returns [true] exactly when the graph had a cycle before
    or [a] was already reachable from [b] (for [a = b]: always). *)
Theorem NewEdge_cycle_iff fuel O g a b :
  lock g = unlocked → wf g →
  is_Some (nodes g !! a) → is_Some (nodes g !! b) →
  size (nodes g) < fuel →
  ∃ g1 r, NewEdge a b g = Ret (None, g1) ∧
          IsCyclic fuel O g1 = Ret (r, g1) ∧
          (r = true ↔ has_cycle g ∨ rtc (edge g) b a).
Proof.
  intros Hl Hwf Ha Hb Hfuel.
  destruct (NewEdge_adds_one_edge g a b Hl (proj1 Hwf) Ha Hb) as (g1 & Hrun & Hn & He).
  assert (wf g1) as Hwf1.
  { apply (exec_wf (CallNewEdge a b) g); [done|]. unfold exec. by rewrite Hrun. }
  destruct (IsCyclic_spec fuel O g1 Hwf1) as (r & Hcyc & Hiff); [by rewrite Hn|].
  exists g1, r. split; [done|]. split; [done|].
  rewrite Hiff. by apply cycle_add_edge.
Qed.

(** X7: no call removes anything: after any call that returns, every key
    of the node table is still a key, every edge is still an edge, and a
    graph that had a cycle still has one. *)
Theorem calls_never_remove c g g' :
  tables_ok g → exec c g = Ret g' →
  dom (nodes g) ⊆ dom (nodes g') ∧
  (∀ u v, edge g u v → edge g' u v) ∧
  (has_cycle g → has_cycle g').
Proof.
  intros Hok Hexec. destruct (exec_effect _ _ _ Hexec) as [_ Heff].
  assert (dom (nodes g) ⊆ dom (nodes g') ∧ ∀ u v, edge g u v → edge g' u v)
    as [Hdom He].
  { destruct Heff as [Hn Hed|key value Hk Hn Hed|key value Hk Hn Hed
                      |from to m Hf Ht Hm Hn Hed].
    - rewrite Hn. split; [done|]. unfold edge, succs. by rewrite Hed.
    - rewrite Hn, dom_insert_L. split; [set_solver|].
      intros u v Huv. unfold edge, succs. rewrite Hed, lookup_insert.
      destruct (decide (key = u)) as [<-|]; [|done].
      destruct (edge_nodes _ _ _ Hok Huv) as [[v' Hv']%elem_of_dom _].
      by rewrite Hk in Hv'.
    - rewrite Hn, dom_insert_L. split; [set_solver|]. unfold edge, succs. by rewrite Hed.
    - rewrite Hn. split; [done|]. intros u v Huv. unfold edge, succs.
      rewrite Hed, lookup_insert. destruct (decide (from = u)) as [<-|]; [|done].
      simpl. unfold edge, succs in Huv. rewrite Hm in Huv. simpl in Huv.
      rewrite lookup_insert. by destruct (decide (to = v)). }
  split; [done|]. split; [done|].
  intros [u Hu]. exists u. by eapply tc_impl.
Qed.

(** ** Locks and read-only calls *)

(** X8: a call that takes the read lock and returns leaves the node table
    and the adjacency table as they were, and the whole graph, lock
    included, unless it is [Edges] on a key that is not a node, which leaves
    one more reader registered. *)
Theorem read_only_unchanged c g g' :
  read_only c = true → exec c g = Ret g' →
  nodes g' = nodes g ∧ edges g' = edges g ∧
  (¬ Edges_on_missing c g → g' = g) ∧
  (Edges_on_missing c g → readers (lock g') = S (readers (lock g))).
Proof.
  destruct c as [key value|key|key value|from to|ord from|ord|fuel ord|fuel ord|ord];
    try discriminate; intros _; unfold exec, Edges_on_missing.
  - unfold Value. lock_cases g; destruct (_ !! key) eqn:Hk; simpl;
      intros [= <-]; split_and!; try done; by intros (? & ? & ? & _).
  - unfold Edges. lock_cases g; destruct (_ !! from) eqn:Hk; simpl; intros [= <-];
      (split_and!; [done|done| |]).
    all: try (intros _; done).
    all: try (intros Hne; exfalso; apply Hne; by eexists _, _).
    all: intros (? & ? & [= <- <-] & Hnone); simpl in *; congruence.
  - unfold Nodes. lock_cases g;
      match goal with |- context [foldl ?f ?a ?l] => destruct (foldl f a l) end; simpl;
      intros [= <-]; split_and!; try done; by intros (? & ? & ? & _).
  - unfold IsCyclic. lock_cases g;
      match goal with |- context [IsCyclic_walk ?f ?o ?x] =>
        destruct (IsCyclic_walk f o x) as [[? ?]| | |] end; simpl; try discriminate;
      intros [= <-]; split_and!; try done; by intros (? & ? & ? & _).
  - unfold TopSort. lock_cases g;
      match goal with |- context [TopSort_walk ?f ?o ?x] =>
        destruct (TopSort_walk f o x) as [[? ?]| | |] end; simpl; try discriminate;
      intros [= <-]; split_and!; try done; by intros (? & ? & ? & _).
  - unfold String. lock_cases g;
      match goal with |- context [foldl ?f ?a ?l] => destruct (foldl f a l) end; simpl;
      intros [= <-]; split_and!; try done; by intros (? & ? & ? & _).
Qed.

(** X9: a call that takes the write lock returns only when no lock at all
    was held, and returns with no lock held, on its error paths too. *)
Theorem mutators_need_and_free_lock c g g' :
  read_only c = false → exec c g = Ret g' →
  lock g = unlocked ∧ lock g' = unlocked.
Proof.
  destruct c as [key value|key|key value|from to|ord from|ord|fuel ord|fuel ord|ord];
    try discriminate; intros _; unfold exec.
  - unfold NewNode. lock_cases g. destruct (_ !! key); simpl; by intros [= <-].
  - unfold UpdateValue. lock_cases g. destruct (_ !! key); simpl; by intros [= <-].
  - unfold NewEdge. lock_cases g. destruct (_ !! from); simpl; [|by intros [= <-]].
    destruct (_ !! to); simpl; [|by intros [= <-]].
    destruct (_ !! from); simpl; [|done]. by intros [= <-].
Qed.

(** ** Cycle test and topological sort together *)

Lemma before_trans (l : list string) (u v w : string) :
  NoDup l → before l u v → before l v w → before l u w.
Proof.
  intros Hnd (i & j & Hi & Hj & Hij) (j' & k & Hj' & Hk & Hjk).
  assert (j = j') as <- by (by eapply NoDup_lookup).
  exists i, k. split_and!; [done|done|lia].
Qed.

Lemma topological_acyclic g (l : list string) :
  NoDup l → topological g l → ¬ has_cycle g.
Proof.
  intros Hnd Htop [u Hu].
  assert (∀ x y, tc (edge g) x y → before l x y) as Hb.
  { intros x y Ht. induction Ht as [x y H|x y z H _ IH]; [by apply Htop|].
    eapply before_trans; [done|by apply Htop|done]. }
  destruct (Hb _ _ Hu) as (i & j & Hi & Hj & Hij).
  assert (i = j) by (by eapply NoDup_lookup). lia.
Qed.

Lemma topo_topological g (l : list string) :
  tables_ok g → (∀ k, k ∈ l ↔ k ∈ dom (nodes g)) → topo g l → topological g l.
Proof.
  intros Hok Hall Htopo u v He.
  destruct (edge_nodes _ _ _ Hok He) as [Hu _].
  apply Hall, list_elem_of_split in Hu as (l1 & l2 & ->).
  pose proof (Htopo l1 u l2 v eq_refl He) as Hv.
  apply list_elem_of_lookup in Hv as [j Hj].
  exists (length l1), (length l1 + S j). split_and!; [by rewrite list_lookup_middle| |lia].
  rewrite lookup_app_r by lia.
  by replace (length l1 + S j - length l1) with (S j) by lia.
Qed.

(** X10: on a well-formed graph the sequence [TopSort] returns is a
    topological order of the edges exactly when [IsCyclic] returns [false]:
    testing with [IsCyclic] first tells whether the result of [TopSort] can
    be used. *)
Theorem TopSort_valid_iff_not_cyclic fuel O O' g :
  wf g → size (nodes g) < fuel →
  ∃ b l, IsCyclic fuel O g = Ret (b, g) ∧
         TopSort fuel O' g = Ret (l, g) ∧
         (topological g l ↔ b = false).
Proof.
  intros Hwf Hfuel.
  destruct (IsCyclic_spec fuel O g Hwf Hfuel) as (b & Hcyc & Hiff).
  destruct (TopSort_spec fuel O' g Hwf) as (l & Hrun & Hnd & Hall & _ & Htopo); [lia|].
  exists b, l. split; [done|]. split; [done|]. split.
  - intros Htop. destruct b; [|done]. exfalso.
    eapply topological_acyclic; [done|done|]. by apply Hiff.
  - intros ->. apply topo_topological; [apply Hwf|done|].
    apply Htopo. intros Hc. by apply Hiff in Hc.
Qed.

(** ** Dump *)

Lemma String_edge_loop (l : list (string * bool)) (out : list (line V)) :
  foldl (λ out '(to, active), if active : bool then out ++ [EdgeLine to] else out)
        out l
  = out ++ (EdgeLine <$> (filter (λ p, p.2 = true) l).*1).
Proof.
  revert out. induction l as [|[to b] l IH]; intros out.
  - simpl. by rewrite app_nil_r.
  - cbn [foldl]. rewrite IH. destruct b.
    + rewrite filter_cons_True by done. cbn [fmap list_fmap fst].
      by rewrite <- app_assoc.
    + by rewrite filter_cons_False by done.
Qed.

Lemma String_node_loop O g (l : list (string * V)) :
  ∀ (t : nat) (out : list (line V)),
  ∃ blocks,
    (foldl (λ '(t, out) '(key, value),
              let out := out ++ [NodeLine key value] in
              let out :=
                foldl (λ out '(to, active),
                         if active : bool then out ++ [EdgeLine to] else out)
                      out (range O t (succs g key)) in
              (S t, out))
           (t, out) l).2
    = out ++ flat_map render blocks ∧
    blocks.*1 = l ∧
    Forall (λ blk, NoDup blk.2 ∧ ∀ to, to ∈ blk.2 ↔ edge g blk.1.1 to) blocks.
Proof.
  induction l as [|[key value] l IH]; intros t out; simpl.
  - exists []. simpl. by rewrite app_nil_r.
  - rewrite String_edge_loop.
    edestruct IH as (blocks & -> & Hl & Hall).
    exists ((key, value, (filter (λ p, p.2 = true) (range O t (succs g key))).*1)
            :: blocks).
    split_and!.
    + simpl. unfold render at 2. simpl. by rewrite <- !app_assoc.
    + rewrite fmap_cons. by f_equal.
    + constructor; [|done]. simpl. split.
      * eapply sublist_NoDup; [|apply fmap_sublist, sublist_filter].
        unfold range. rewrite pick_perm. apply NoDup_fst_map_to_list.
      * intros to. rewrite list_elem_of_fmap. unfold edge. split.
        -- intros ([to' b] & -> & [Hb Hin]%list_elem_of_filter). simpl in *. subst b.
           by apply elem_of_range in Hin.
        -- intros He. exists (to, true). split; [done|].
           apply list_elem_of_filter. split; [done|]. by apply elem_of_range.
Qed.

(** X11: when no writer holds the lock, [String] writes, for every node of
    the graph exactly once, the line of the node with its value followed by
    one line for each of its direct successors, each exactly once, and
    nothing else; the graph is left as it was. *)
Theorem String_lines O g :
  no_writer g →
  ∃ blocks, String O g = Ret (flat_map render blocks, g) ∧
            blocks.*1 ≡ₚ map_to_list (nodes g) ∧
            Forall (λ blk, NoDup blk.2 ∧ ∀ to, to ∈ blk.2 ↔ edge g blk.1.1 to)
                   blocks.
Proof.
  intros Hw.
  set (g1 := set_lock {| writer := false; readers := S (readers (lock g)) |} g).
  destruct (String_node_loop O g1 (range O 0 (nodes g)) 1 [])
    as (blocks & Hout & Hl & Hall).
  exists blocks. split; [|split; [|exact Hall]].
  - unfold String, RLock. rewrite Hw. simpl. fold g1.
    match goal with |- context [foldl ?f ?a ?l] =>
      destruct (foldl f a l) as [t out] end.
    simpl in *. subst out. do 2 f_equal.
    destruct g as [[w r] n e]; unfold no_writer in Hw; simpl in *. by subst.
  - rewrite Hl. unfold range. by rewrite pick_perm.
Qed.

(** X12: the answer of [IsCyclic] does not depend on the iteration order
    of the maps: on a well-formed graph any two runs return the same
    boolean. *)
Theorem IsCyclic_order_independent fuel O O' g :
  wf g → size (nodes g) < fuel →
  ∃ b, IsCyclic fuel O g = Ret (b, g) ∧ IsCyclic fuel O' g = Ret (b, g).
Proof.
  intros Hwf Hfuel.
  destruct (IsCyclic_spec fuel O g Hwf Hfuel) as (b & Hrun & Hiff).
  destruct (IsCyclic_spec fuel O' g Hwf Hfuel) as (b' & Hrun' & Hiff').
  exists b. split; [done|]. rewrite Hrun'. do 2 f_equal.
  destruct b, b'; naive_solver.
Qed.

(** X13: on a well-formed acyclic graph the sequence of [TopSort] respects
    reachability, not only single edges: every key stands strictly before
    every other key that can be reached from it. *)
Theorem TopSort_respects_paths fuel O g :
  wf g → ¬ has_cycle g → size (nodes g) < fuel →
  ∃ l, TopSort fuel O g = Ret (l, g) ∧
       ∀ u v, tc (edge g) u v → before l u v.
Proof.
  intros Hwf Hacyc Hfuel.
  destruct (TopSort_spec fuel O g Hwf) as (l & Hrun & Hnd & Hall & _ & Htopo); [lia|].
  exists l. split; [done|].
  pose proof (topo_topological g l (proj1 Hwf) Hall (Htopo Hacyc)) as Htop.
  intros u v Ht. induction Ht as [x y H|x y z H _ IH]; [by apply Htop|].
  eapply before_trans; [done|by apply Htop|done].
Qed.

(** ** Which calls return *)


(** X19: on every graph built through the accessors, a call that writes
    returns exactly when no reader is registered; with a reader left
    behind it waits for ever. *)
Theorem writes_return_iff_no_reader (c : call V) g :
  reachable g → read_only c = false →
  ((∃ g', exec c g = Ret g') ↔ readers (lock g) = 0) ∧
  (readers (lock g) ≠ 0 → exec c g = Block).
Proof.
  intros (Hok & Hact & Hw)%reachable_wf Hc. split.
  - split.
    + intros [g' Hexec].
      destruct (mutators_need_and_free_lock c g g' Hc Hexec) as [-> _]. done.
    + intros Hr. assert (lock g = unlocked) as Hl.
      { unfold no_writer in Hw. destruct (lock g) as [w r]; simpl in *. by subst. }
      destruct c as [key value|key|key value|from to|ord from|ord|fuel ord|fuel ord|ord];
        try discriminate; unfold exec.
      * rewrite NewNode_unlocked by done. destruct (nodes g !! key); by eexists.
      * rewrite UpdateValue_unlocked by done. destruct (nodes g !! key); by eexists.
      * rewrite NewEdge_unlocked by done.
        destruct (nodes g !! from) eqn:Hf; [|by eexists].
        destruct (nodes g !! to); [|by eexists].
        destruct (proj1 Hok from) as [m ->]; [by rewrite Hf|]. by eexists.
  - intros Hr.
    destruct c as [key value|key|key value|from to|ord from|ord|fuel ord|fuel ord|ord];
      try discriminate; unfold exec;
      [unfold NewNode|unfold UpdateValue|unfold NewEdge]; by rewrite Lock_blocked.
Qed.

End Theory.

(** * The properties on sample graphs *)

Lemma reachable_build {V} (cs : list (call V)) g :
  build cs = Ret g → reachable g.
Proof.
  revert g. induction cs as [|c cs IH] using rev_ind; intros g.
  - intros [= <-]. constructor.
  - unfold build. rewrite foldl_app. simpl. fold (build cs).
    destruct (build cs) as [g0| | |]; simpl; try discriminate.
    intros Hc. eapply reach_call; [by apply IH|done].
Qed.

Lemma reachable_diamond : reachable diamond.
Proof. apply (reachable_build diamond_calls). vm_compute. reflexivity. Qed.

Lemma reachable_triangle : reachable triangle.
Proof. apply (reachable_build triangle_calls). vm_compute. reflexivity. Qed.

(** The scenarios of the specification. *)
Example IsCyclic_diamond :
  IsCyclic 5 plain_order diamond = Ret (false, diamond) ∧
  IsCyclic 5 reverse_order diamond = Ret (false, diamond).
Proof. split; vm_compute; reflexivity. Qed.

Example IsCyclic_triangle :
  IsCyclic 5 plain_order triangle = Ret (true, triangle) ∧
  IsCyclic 5 plain_order closed_diamond = Ret (true, closed_diamond).
Proof. split; vm_compute; reflexivity. Qed.

Example TopSort_diamond :
  TopSort 5 plain_order diamond = Ret (["a"; "b"; "c"; "d"]%string, diamond) ∧
  TopSort 5 reverse_order diamond = Ret (["a"; "c"; "b"; "d"]%string, diamond).
Proof. split; vm_compute; reflexivity. Qed.

Lemma IsCyclic_iff_cycle_witness :
  wf diamond ∧ size (nodes diamond) < 5 ∧
  ∃ b, IsCyclic 5 plain_order diamond = Ret (b, diamond) ∧
       (b = true ↔ has_cycle diamond) ∧
       (∀ a, edge diamond a a → b = true) ∧
       (no_edges diamond → b = false).
Proof.
  assert (wf diamond) as Hwf by apply reachable_wf, reachable_diamond.
  assert (size (nodes diamond) < 5) as Hsize by (vm_compute; lia).
  split; [done|]. split; [done|].
  exact (IsCyclic_iff_cycle 5 plain_order diamond Hwf Hsize).
Defined.

Lemma TopSort_topological_witness :
  wf diamond ∧ ¬ has_cycle diamond ∧ size (nodes diamond) < 5 ∧
  ∃ l, TopSort 5 reverse_order diamond = Ret (l, diamond) ∧ NoDup l ∧
       ∀ u v, edge diamond u v →
         ∃ i j, l !! i = Some u ∧ l !! j = Some v ∧ i < j.
Proof.
  assert (wf diamond) as Hwf by apply reachable_wf, reachable_diamond.
  assert (size (nodes diamond) < 5) as Hsize by (vm_compute; lia).
  assert (¬ has_cycle diamond) as Hacyc.
  { apply (acyclic_by_run 5 plain_order); [done|done|]. vm_compute. reflexivity. }
  split; [done|]. split; [done|]. split; [done|].
  exact (TopSort_topological 5 reverse_order diamond Hwf Hacyc Hsize).
Defined.

Lemma TopSort_every_key_once_witness :
  wf triangle ∧ size (nodes triangle) < 5 ∧
  ∃ l, TopSort 5 plain_order triangle = Ret (l, triangle) ∧
       NoDup l ∧ (∀ k, k ∈ l ↔ is_Some (nodes triangle !! k)) ∧
       length l = size (nodes triangle).
Proof.
  assert (wf triangle) as Hwf by apply reachable_wf, reachable_triangle.
  assert (size (nodes triangle) < 5) as Hsize by (vm_compute; lia).
  split; [done|]. split; [done|].
  exact (TopSort_every_key_once 5 plain_order triangle Hwf Hsize).
Defined.

(** C3 (as stated) fails: in one cycle test of the diamond a→b, a→c, b→d,
    c→d the successors of "d" are ranged over three times and those of "c"
    twice, each time after the key was marked seen and its exploration had
    ended ("d" is a successor of both "b" and "c", so this happens for
    every iteration order); and when the test ends the on-path mark of the
    last root "a" is still set: no call clears its own mark. *)
Lemma IsCyclic_explores_again :
  reachable diamond ∧
  (∃ s, IsCyclic_walk 5 plain_order diamond = Ret (false, s) ∧
        explored s = ["d"; "b"; "d"; "c"; "a"; "d"; "c"]%string ∧
        mark (c_rs s) "a" = true) ∧
  ¬ explores_once 5 plain_order diamond.
Proof.
  assert (∃ s, IsCyclic_walk 5 plain_order diamond = Ret (false, s) ∧
               explored s = ["d"; "b"; "d"; "c"; "a"; "d"; "c"]%string ∧
               mark (c_rs s) "a" = true) as Hrun.
  { eexists. split_and!; vm_compute; reflexivity. }
  split; [apply reachable_diamond|]. split; [done|].
  destruct Hrun as (s & Hrun & Hlog & _). intros Honce.
  specialize (Honce false s Hrun). rewrite Hlog in Honce.
  apply NoDup_cons_1_1 in Honce. apply Honce. do 2 constructor.
Qed.

Lemma isCyclicDFS_marks_witness :
  wf diamond ∧ "a"%string ∈ dom (nodes diamond) ∧ size (nodes diamond) < 5 ∧
  (∃ b, IsCyclic 5 plain_order diamond = Ret (b, diamond) ∧
        coloring_HasCycle 5 reverse_order diamond = Ret (b, diamond)) ∧
  (∃ b s', isCyclicDFS 5 plain_order diamond "a" cyc_start = Ret (b, s') ∧
     (b = false →
        marks (c_rs s') = {["a"%string]} ∪ marks (c_rs cyc_start) ∧
        ∀ to, edge diamond "a" to → to ∈ marks (c_seen s'))).
Proof.
  assert (wf diamond) as Hwf by apply reachable_wf, reachable_diamond.
  assert (size (nodes diamond) < 5) as Hsize by (vm_compute; lia).
  assert ("a"%string ∈ dom (nodes diamond)) as Hin.
  { apply elem_of_dom. exists 1. vm_compute. reflexivity. }
  split; [done|]. split; [done|]. split; [done|].
  exact (isCyclicDFS_marks 5 plain_order reverse_order diamond "a" cyc_start
           Hwf Hin Hsize).
Defined.

Lemma NewEdge_idempotent_witness :
  lock diamond = unlocked ∧ tables_ok diamond ∧
  (nodes diamond !! "d"%string = None ∨ nodes diamond !! "a"%string = None →
     NewEdge "d" "a" diamond = Ret (Some ErrorNodeNotFound, diamond)) ∧
  (is_Some (nodes diamond !! "d"%string) → is_Some (nodes diamond !! "a"%string) →
     ∃ g1 g2, NewEdge "d" "a" diamond = Ret (None, g1) ∧
              NewEdge "d" "a" g1 = Ret (None, g2) ∧
              ∀ O1 O2, ∃ l1 l2,
                Edges O1 "d" g1 = Ret ((l1, None), g1) ∧
                Edges O2 "d" g2 = Ret ((l2, None), g2) ∧
                l1 ≡ₚ l2 ∧ "a"%string ∈ l1).
Proof.
  assert (lock diamond = unlocked) as Hl by (vm_compute; reflexivity).
  assert (tables_ok diamond) as Hok by apply reachable_wf, reachable_diamond.
  split; [done|]. split; [done|].
  exact (NewEdge_idempotent diamond "d" "a" Hl Hok).
Defined.

Lemma NewNode_then_duplicate_witness :
  lock diamond = unlocked ∧ nodes diamond !! "e"%string = None ∧
  ∃ g1 g2, NewNode "e" 5 diamond = Ret (None, g1) ∧
           Value "e" g1 = Ret ((Some 5, None), g1) ∧
           NewNode "e" 6 g1 = Ret (Some ErrorNodeAlreadyExists, g2) ∧
           Value "e" g2 = Ret ((Some 5, None), g2).
Proof.
  assert (lock diamond = unlocked) as Hl by (vm_compute; reflexivity).
  assert (nodes diamond !! "e"%string = None) as Hk by (vm_compute; reflexivity).
  split; [done|]. split; [done|].
  exact (NewNode_then_duplicate diamond "e" 5 6 Hl Hk).
Defined.

Lemma error_leaves_tables_witness :
  fails diamond ErrorNodeAlreadyExists diamond ∧
  nodes diamond = nodes diamond ∧ edges diamond = edges diamond ∧
  lock diamond = lock diamond.
Proof.
  assert (fails diamond ErrorNodeAlreadyExists diamond) as Hf.
  { left. exists "a"%string, 7. vm_compute. reflexivity. }
  split; [done|].
  exact (error_leaves_tables diamond ErrorNodeAlreadyExists diamond Hf).
Defined.

Lemma tables_ok_invariant_witness :
  reachable diamond ∧ tables_ok diamond ∧
  exec (CallNewEdge "d" "a") diamond = Ret closed_diamond ∧
  tables_ok closed_diamond.
Proof.
  assert (exec (CallNewEdge "d" "a") diamond = Ret closed_diamond) as Hexec
    by (vm_compute; reflexivity).
  pose proof (proj2 tables_ok_invariant diamond reachable_diamond) as Hok.
  split; [apply reachable_diamond|]. split; [done|]. split; [done|].
  exact (proj1 tables_ok_invariant (CallNewEdge "d" "a") diamond closed_diamond
           Hok Hexec).
Defined.

Lemma UpdateValue_frame_witness :
  lock diamond = unlocked ∧ is_Some (nodes diamond !! "b"%string) ∧
  ∃ g', UpdateValue "b" 20 diamond = Ret (None, g') ∧
        Value "b" g' = Ret ((Some 20, None), g') ∧
        (∀ k' r, k' ≠ "b"%string →
           Value k' diamond = Ret (r, diamond) → Value k' g' = Ret (r, g')) ∧
        dom (nodes g') = dom (nodes diamond) ∧
        edges g' = edges diamond.
Proof.
  assert (lock diamond = unlocked) as Hl by (vm_compute; reflexivity).
  assert (is_Some (nodes diamond !! "b"%string)) as Hk
    by (exists 2; vm_compute; reflexivity).
  split; [done|]. split; [done|].
  exact (UpdateValue_frame diamond "b" 20 Hl Hk).
Defined.

(** C9 fails on the code: [Edges] on a key that is not a node returns
    [ErrorNodeNotFound] still holding the read lock it took; the graph
    then has a reader for ever, and the next call that needs the write lock
    (here [NewNode], likewise [NewEdge] and [UpdateValue]) waits and never
    returns.  Calls that only read still go through. *)
Theorem Edges_error_keeps_read_lock :
  ∃ g1 : DirectedGraph nat,
    Edges plain_order "x" New = Ret (([], Some ErrorNodeNotFound), g1) ∧
    lock g1 = {| writer := false; readers := 1 |} ∧
    NewNode "x" 0 g1 = Block ∧
    NewEdge "x" "x" g1 = Block ∧
    UpdateValue "x" 0 g1 = Block ∧
    Value "x" g1 = Ret ((None, Some ErrorNodeNotFound), g1).
Proof. eexists. split_and!; vm_compute; reflexivity. Qed.

(** * Properties of the queue *)

Section QueueTheory.

Context {V : Type}.
Implicit Types (q : Queue V) (xs : list V).

Lemma Add_unlocked x q :
  q_lock q = unlocked →
  Add x q = Ret (tt, {| q_lock := unlocked; data := data q ++ [x] |}).
Proof. destruct q as [l d]; simpl. by intros ->. Qed.

Lemma Remove_unlocked q :
  q_lock q = unlocked →
  Remove q =
    match data q with
    | [] => Ret ((None, Some ErrorEmpty), q)
    | x :: d => Ret ((Some x, None), {| q_lock := unlocked; data := d |})
    end.
Proof. destruct q as [l [|x d]]; simpl; by intros ->. Qed.

Lemma Peek_no_writer q :
  writer (q_lock q) = false →
  Peek q =
    match data q with
    | [] => Ret ((None, Some ErrorEmpty), q)
    | x :: _ => Ret ((Some x, None), q)
    end.
Proof. destruct q as [[w r] [|x d]]; simpl; by intros ->. Qed.

Lemma Len_no_writer q :
  writer (q_lock q) = false → Len q = Ret (Z.of_nat (length (data q)), q).
Proof. destruct q as [[w r] d]; simpl; by intros ->. Qed.

Lemma add_all_unlocked xs q :
  q_lock q = unlocked →
  add_all xs q = Ret {| q_lock := unlocked; data := data q ++ xs |}.
Proof.
  revert q. induction xs as [|x xs IH]; intros q Hl; simpl.
  - rewrite app_nil_r. destruct q; simpl in *. by subst.
  - rewrite Add_unlocked by done. simpl. rewrite IH by done. simpl.
    by rewrite <- app_assoc.
Qed.

Lemma remove_n_unlocked n q :
  q_lock q = unlocked →
  remove_n n q = Ret (take n (data q),
                      {| q_lock := unlocked; data := drop n (data q) |}).
Proof.
  revert q. induction n as [|n IH]; intros q Hl; simpl.
  - destruct q; simpl in *. by subst.
  - rewrite Remove_unlocked by done. destruct q as [l [|x d]]; simpl in *; subst.
    + done.
    + by rewrite IH.
Qed.

(** X14: first in, first out.  On a queue with no lock held, after the
    items [xs] were added one by one, [n] calls of [Remove] return the
    first [n] items of the old content followed by [xs], in that order,
    and leave the rest; they stop with [ErrorEmpty] once the queue is
    empty. *)
Theorem queue_first_in_first_out q xs :
  q_lock q = unlocked →
  ∃ q1, add_all xs q = Ret q1 ∧
        ∀ n, ∃ q2, remove_n n q1 = Ret (take n (data q ++ xs), q2) ∧
                   data q2 = drop n (data q ++ xs) ∧
                   (length (data q ++ xs) ≤ n →
                      Remove q2 = Ret ((None, Some ErrorEmpty), q2)).
Proof.
  intros Hl. rewrite add_all_unlocked by done. eexists. split; [done|].
  intros n. rewrite remove_n_unlocked by done. eexists. split; [done|].
  split; [done|]. simpl. intros Hn.
  rewrite Remove_unlocked by done. simpl. by rewrite drop_ge.
Qed.

(** X15: on a queue with no lock held, [Peek] returns what the next
    [Remove] returns and leaves the queue as it was; on the empty queue
    both return [ErrorEmpty] and [Remove] changes nothing, otherwise both
    return the front item and [Remove] takes exactly that item off. *)
Theorem Peek_is_next_Remove q :
  q_lock q = unlocked →
  ∃ r q', Peek q = Ret (r, q) ∧ Remove q = Ret (r, q') ∧
          ((r = (None, Some ErrorEmpty) ∧ data q = [] ∧ q' = q) ∨
           (∃ x, r = (Some x, None) ∧ data q = x :: data q' ∧
                 q_lock q' = unlocked)).
Proof.
  intros Hl. rewrite Peek_no_writer, Remove_unlocked by (by rewrite ?Hl).
  destruct (data q) as [|x d] eqn:Hd; eexists _, _; (split; [done|]); (split; [done|]).
  - by left.
  - right. by exists x.
Qed.

(** X16: on a queue with no lock held, [Len] returns the number of items
    and changes nothing; [Add] always succeeds and makes it one more, a
    [Remove] that returns an item makes it one less, and [Remove] returns
    [ErrorEmpty] exactly when [Len] returns 0. *)
Theorem Len_counts_items q x :
  q_lock q = unlocked →
  ∃ n q1, Len q = Ret (n, q) ∧ (0 ≤ n)%Z ∧
          Add x q = Ret (tt, q1) ∧ Len q1 = Ret ((n + 1)%Z, q1) ∧
          (n = 0%Z ↔ Remove q = Ret ((None, Some ErrorEmpty), q)) ∧
          (∀ y q2, Remove q = Ret ((Some y, None), q2) →
                   Len q2 = Ret ((n - 1)%Z, q2)).
Proof.
  intros Hl. rewrite Len_no_writer, Add_unlocked, Remove_unlocked by (by rewrite ?Hl).
  eexists _, _. split; [done|]. split; [lia|]. split; [done|].
  rewrite Len_no_writer by done. simpl. rewrite length_app. simpl.
  split_and!.
  - do 2 f_equal. lia.
  - destruct (data q); simpl; split; (done || lia).
  - intros y q2. destruct (data q) as [|z d]; simpl; [done|]. intros [= -> <-].
    rewrite Len_no_writer by done. simpl. do 2 f_equal. lia.
Qed.

(** X17: every call of the queue that returns leaves the lock as it found
    it, on the [ErrorEmpty] paths too, and never changes the content
    unless it is [Add] or a [Remove] that returns an item. *)
Theorem queue_calls_release_lock (c : q_call V) q q' :
  q_exec c q = Ret q' →
  q_lock q' = q_lock q ∧
  (match c with QLen | QPeek => data q' = data q
   | QAdd x => data q' = data q ++ [x]
   | QRemove => data q' = drop 1 (data q) end).
Proof.
  destruct q as [[[] r] d]; destruct c as [|x| |]; simpl; try discriminate.
  - by intros [= <-].
  - destruct r; simpl; [|discriminate]. by intros [= <-].
  - destruct d; simpl; by intros [= <-].
  - destruct r; simpl; [|discriminate]. destruct d; simpl; by intros [= <-].
Qed.

End QueueTheory.

(** * The further properties on samples *)

Lemma wf_diamond : wf diamond.
Proof. apply reachable_wf, reachable_diamond. Qed.

Lemma diamond_unlocked : lock diamond = unlocked.
Proof. vm_compute. reflexivity. Qed.

Lemma diamond_acyclic : ¬ has_cycle diamond.
Proof.
  apply (acyclic_by_run 5 plain_order); [apply wf_diamond|vm_compute; lia|].
  vm_compute. reflexivity.
Qed.

Lemma Nodes_every_key_once_witness :
  no_writer diamond ∧
  ∃ l, Nodes reverse_order diamond = Ret (l, diamond) ∧
       NoDup l ∧ (∀ k, k ∈ l ↔ is_Some (nodes diamond !! k)) ∧
       length l = size (nodes diamond).
Proof.
  assert (no_writer diamond) as Hw by apply wf_diamond.
  split; [done|]. exact (Nodes_every_key_once reverse_order diamond Hw).
Defined.

Lemma Value_found_iff_node_witness :
  lock diamond = unlocked ∧
  (∀ v, Value "z" diamond = Ret ((Some v, None), diamond)
        ↔ nodes diamond !! "z"%string = Some v) ∧
  (nodes diamond !! "z"%string = None →
     Value "z" diamond = Ret ((None, Some ErrorNodeNotFound), diamond) ∧
     UpdateValue "z" 9 diamond = Ret (Some ErrorNodeNotFound, diamond)).
Proof.
  split; [apply diamond_unlocked|].
  exact (Value_found_iff_node diamond "z" 9 diamond_unlocked).
Defined.

Lemma Edges_lists_successors_witness :
  no_writer diamond ∧ is_Some (nodes diamond !! "a"%string) ∧
  ∃ l, Edges plain_order "a" diamond = Ret ((l, None), diamond) ∧
       NoDup l ∧ ∀ to, to ∈ l ↔ edge diamond "a" to.
Proof.
  assert (no_writer diamond) as Hw by apply wf_diamond.
  assert (is_Some (nodes diamond !! "a"%string)) as Ha
    by (exists 1; vm_compute; reflexivity).
  split; [done|]. split; [done|].
  exact (Edges_lists_successors plain_order "a" diamond Hw Ha).
Defined.

Lemma NewNode_adds_isolated_node_witness :
  lock diamond = unlocked ∧ tables_ok diamond ∧
  nodes diamond !! "e"%string = None ∧
  ∃ g1, NewNode "e" 5 diamond = Ret (None, g1) ∧
        dom (nodes g1) = {["e"%string]} ∪ dom (nodes diamond) ∧
        (∀ k', k' ≠ "e"%string → nodes g1 !! k' = nodes diamond !! k') ∧
        (∀ u w, edge g1 u w ↔ edge diamond u w) ∧
        (∀ w, ¬ edge g1 "e" w) ∧
        (has_cycle g1 ↔ has_cycle diamond).
Proof.
  assert (tables_ok diamond) as Hok by apply wf_diamond.
  assert (nodes diamond !! "e"%string = None) as Hk by (vm_compute; reflexivity).
  split; [apply diamond_unlocked|]. split; [done|]. split; [done|].
  exact (NewNode_adds_isolated_node diamond "e" 5 diamond_unlocked Hok Hk).
Defined.

Lemma NewEdge_adds_one_edge_witness :
  lock diamond = unlocked ∧ tables_ok diamond ∧
  is_Some (nodes diamond !! "d"%string) ∧ is_Some (nodes diamond !! "a"%string) ∧
  ∃ g1, NewEdge "d" "a" diamond = Ret (None, g1) ∧
        nodes g1 = nodes diamond ∧
        ∀ u w, edge g1 u w ↔ edge diamond u w ∨ (u = "d"%string ∧ w = "a"%string).
Proof.
  assert (tables_ok diamond) as Hok by apply wf_diamond.
  assert (is_Some (nodes diamond !! "d"%string)) as Hd
    by (exists 4; vm_compute; reflexivity).
  assert (is_Some (nodes diamond !! "a"%string)) as Ha
    by (exists 1; vm_compute; reflexivity).
  split; [apply diamond_unlocked|]. split; [done|]. split; [done|]. split; [done|].
  exact (NewEdge_adds_one_edge diamond "d" "a" diamond_unlocked Hok Hd Ha).
Defined.

Lemma NewEdge_cycle_iff_witness :
  lock diamond = unlocked ∧ wf diamond ∧
  is_Some (nodes diamond !! "d"%string) ∧ is_Some (nodes diamond !! "a"%string) ∧
  size (nodes diamond) < 5 ∧
  ∃ g1 r, NewEdge "d" "a" diamond = Ret (None, g1) ∧
          IsCyclic 5 reverse_order g1 = Ret (r, g1) ∧
          (r = true ↔ has_cycle diamond ∨ rtc (edge diamond) "a" "d").
Proof.
  assert (is_Some (nodes diamond !! "d"%string)) as Hd
    by (exists 4; vm_compute; reflexivity).
  assert (is_Some (nodes diamond !! "a"%string)) as Ha
    by (exists 1; vm_compute; reflexivity).
  assert (size (nodes diamond) < 5) as Hsize by (vm_compute; lia).
  split; [apply diamond_unlocked|]. split; [apply wf_diamond|].
  split; [done|]. split; [done|]. split; [done|].
  exact (NewEdge_cycle_iff 5 reverse_order diamond "d" "a"
           diamond_unlocked wf_diamond Hd Ha Hsize).
Defined.

Lemma calls_never_remove_witness :
  tables_ok diamond ∧
  exec (CallNewEdge "d" "a") diamond = Ret closed_diamond ∧
  dom (nodes diamond) ⊆ dom (nodes closed_diamond) ∧
  (∀ u v, edge diamond u v → edge closed_diamond u v) ∧
  (has_cycle diamond → has_cycle closed_diamond).
Proof.
  assert (tables_ok diamond) as Hok by apply wf_diamond.
  assert (exec (CallNewEdge "d" "a") diamond = Ret closed_diamond) as Hexec
    by (vm_compute; reflexivity).
  split; [done|]. split; [done|].
  exact (calls_never_remove (CallNewEdge "d" "a") diamond closed_diamond Hok Hexec).
Defined.

Lemma read_only_unchanged_witness :
  read_only (CallTopSort 5 plain_order : call nat) = true ∧
  exec (CallTopSort 5 plain_order) diamond = Ret diamond ∧
  nodes diamond = nodes diamond ∧ edges diamond = edges diamond ∧
  (¬ Edges_on_missing (CallTopSort 5 plain_order) diamond → diamond = diamond) ∧
  (Edges_on_missing (CallTopSort 5 plain_order) diamond →
     readers (lock diamond) = S (readers (lock diamond))).
Proof.
  assert (exec (CallTopSort 5 plain_order) diamond = Ret diamond) as Hexec
    by (vm_compute; reflexivity).
  split; [done|]. split; [done|].
  exact (read_only_unchanged (CallTopSort 5 plain_order) diamond diamond
           eq_refl Hexec).
Defined.

Lemma mutators_need_and_free_lock_witness :
  read_only (CallNewEdge "d" "a" : call nat) = false ∧
  exec (CallNewEdge "d" "a") diamond = Ret closed_diamond ∧
  lock diamond = unlocked ∧ lock closed_diamond = unlocked.
Proof.
  assert (exec (CallNewEdge "d" "a") diamond = Ret closed_diamond) as Hexec
    by (vm_compute; reflexivity).
  split; [done|]. split; [done|].
  exact (mutators_need_and_free_lock (CallNewEdge "d" "a") diamond closed_diamond
           eq_refl Hexec).
Defined.

Lemma TopSort_valid_iff_not_cyclic_witness :
  wf triangle ∧ size (nodes triangle) < 5 ∧
  ∃ b l, IsCyclic 5 plain_order triangle = Ret (b, triangle) ∧
         TopSort 5 reverse_order triangle = Ret (l, triangle) ∧
         (topological triangle l ↔ b = false).
Proof.
  assert (wf triangle) as Hwf by apply reachable_wf, reachable_triangle.
  assert (size (nodes triangle) < 5) as Hsize by (vm_compute; lia).
  split; [done|]. split; [done|].
  exact (TopSort_valid_iff_not_cyclic 5 plain_order reverse_order triangle Hwf Hsize).
Defined.

Lemma String_lines_witness :
  no_writer diamond ∧
  ∃ blocks, String plain_order diamond = Ret (flat_map render blocks, diamond) ∧
            blocks.*1 ≡ₚ map_to_list (nodes diamond) ∧
            Forall (λ blk, NoDup blk.2 ∧ ∀ to, to ∈ blk.2 ↔ edge diamond blk.1.1 to)
                   blocks.
Proof.
  assert (no_writer diamond) as Hw by apply wf_diamond.
  split; [done|]. exact (String_lines plain_order diamond Hw).
Defined.

Lemma IsCyclic_order_independent_witness :
  wf triangle ∧ size (nodes triangle) < 5 ∧
  ∃ b, IsCyclic 5 plain_order triangle = Ret (b, triangle) ∧
       IsCyclic 5 reverse_order triangle = Ret (b, triangle).
Proof.
  assert (wf triangle) as Hwf by apply reachable_wf, reachable_triangle.
  assert (size (nodes triangle) < 5) as Hsize by (vm_compute; lia).
  split; [done|]. split; [done|].
  exact (IsCyclic_order_independent 5 plain_order reverse_order triangle Hwf Hsize).
Defined.

Lemma TopSort_respects_paths_witness :
  wf diamond ∧ ¬ has_cycle diamond ∧ size (nodes diamond) < 5 ∧
  ∃ l, TopSort 5 plain_order diamond = Ret (l, diamond) ∧
       ∀ u v, tc (edge diamond) u v → before l u v.
Proof.
  assert (size (nodes diamond) < 5) as Hsize by (vm_compute; lia).
  split; [apply wf_diamond|]. split; [apply diamond_acyclic|]. split; [done|].
  exact (TopSort_respects_paths 5 plain_order diamond wf_diamond diamond_acyclic Hsize).
Defined.

Lemma queue_first_in_first_out_witness :
  q_lock sample_queue = unlocked ∧
  ∃ q1, add_all [4; 5] sample_queue = Ret q1 ∧
        ∀ n, ∃ q2, remove_n n q1 = Ret (take n (data sample_queue ++ [4; 5]), q2) ∧
                   data q2 = drop n (data sample_queue ++ [4; 5]) ∧
                   (length (data sample_queue ++ [4; 5]) ≤ n →
                      Remove q2 = Ret ((None, Some ErrorEmpty), q2)).
Proof.
  split; [reflexivity|]. exact (queue_first_in_first_out sample_queue [4; 5] eq_refl).
Defined.

Lemma Peek_is_next_Remove_witness :
  q_lock sample_queue = unlocked ∧
  ∃ r q', Peek sample_queue = Ret (r, sample_queue) ∧
          Remove sample_queue = Ret (r, q') ∧
          ((r = (None, Some ErrorEmpty) ∧ data sample_queue = [] ∧ q' = sample_queue) ∨
           (∃ x, r = (Some x, None) ∧ data sample_queue = x :: data q' ∧
                 q_lock q' = unlocked)).
Proof.
  split; [reflexivity|]. exact (Peek_is_next_Remove sample_queue eq_refl).
Defined.

Lemma Len_counts_items_witness :
  q_lock sample_queue = unlocked ∧
  ∃ n q1, Len sample_queue = Ret (n, sample_queue) ∧ (0 ≤ n)%Z ∧
          Add 4 sample_queue = Ret (tt, q1) ∧ Len q1 = Ret ((n + 1)%Z, q1) ∧
          (n = 0%Z ↔ Remove sample_queue = Ret ((None, Some ErrorEmpty), sample_queue)) ∧
          (∀ y q2, Remove sample_queue = Ret ((Some y, None), q2) →
                   Len q2 = Ret ((n - 1)%Z, q2)).
Proof.
  split; [reflexivity|]. exact (Len_counts_items sample_queue 4 eq_refl).
Defined.

Lemma queue_calls_release_lock_witness :
  q_exec QRemove sample_queue = Ret {| q_lock := unlocked; data := [2; 3] |} ∧
  q_lock {| q_lock := unlocked; data := [2; 3] |} = q_lock sample_queue ∧
  data {| q_lock := unlocked; data := [2; 3] |} = drop 1 (data sample_queue).
Proof.
  split; [reflexivity|].
  exact (queue_calls_release_lock QRemove sample_queue
           {| q_lock := unlocked; data := [2; 3] |} eq_refl).
Defined.


Lemma writes_return_iff_no_reader_witness :
  reachable diamond ∧ read_only (CallNewNode "e" 5) = false ∧
  ((∃ g', exec (CallNewNode "e" 5) diamond = Ret g') ↔ readers (lock diamond) = 0) ∧
  (readers (lock diamond) ≠ 0 → exec (CallNewNode "e" 5) diamond = Block).
Proof.
  split; [apply reachable_diamond|]. split; [done|].
  exact (writes_return_iff_no_reader (CallNewNode "e" 5) diamond
           reachable_diamond eq_refl).
Defined.
